(** * ELM ordinance download pipeline ([elm/ords/download.py])

    A shallow embedding of the county-ordinance download logic: URL
    down-selection, the jurisdiction filter, the sequential ordinance
    check, the best-match selection and the orchestrating coroutine,
    together with the properties the specification states about them. *)

From Stdlib Require Import ZArith Lia Ascii String.
From stdpp Require Import gmap strings list sorting.

Local Open Scope Z_scope.

(* stdpp's solvers clear hypotheses by name; the notice is harmless. *)
#[local] Set Warnings "-clear-no-such-hyp".

(** ** Python ordering protocol

    [sorted] only ever calls [<] on the keys.  The keys of this module are
    ints, bools and tuples of those; tuples compare lexicographically: the
    first position where the two tuples differ (by [==]) decides. *)

Class PyLt (K : Type) := py_lt : K → K → bool.

Class PyOrd (K : Type) `{PyLt K} := {
  py_lt_irrefl (a : K) : py_lt a a = false;
  py_lt_trans (a b c : K) :
    py_lt a b = true → py_lt b c = true → py_lt a c = true;
  py_lt_total (a b : K) :
    py_lt a b = false → py_lt b a = false → a = b
}.

(** [a <= b] as the sort sees it: [not (b < a)]. *)
Definition py_le {K} `{PyLt K} (a b : K) : bool := negb (py_lt b a).

#[export] Instance int_lt : PyLt Z := Z.ltb.

(** [bool] is a subclass of [int]: [False] is 0 and [True] is 1. *)
#[export] Instance bool_lt : PyLt bool := λ a b, Z.b2z a <? Z.b2z b.

#[export] Instance tuple_lt {A B} `{EqDecision A, PyLt A, PyLt B} : PyLt (A * B) :=
  λ p q, if decide (p.1 = q.1) then py_lt p.2 q.2 else py_lt p.1 q.1.

(** ** The builtin [sorted(iterable, key=...)]

    [sorted] is a stable ascending sort that compares keys with [<] only.
    It is embedded as a right-to-left insertion sort: an element is placed
    in front of the first element whose key is not smaller than its own, so
    that elements with equal keys keep their input order. *)

Section sorted.
Context {A K : Type} `{PyLt K} (key : A → K).

Fixpoint sorted_insert (x : A) (l : list A) : list A :=
  match l with
  | [] => [x]
  | y :: l' =>
      if py_lt (key y) (key x) then y :: sorted_insert x l' else x :: y :: l'
  end.

Fixpoint sorted (l : list A) : list A :=
  match l with
  | [] => []
  | x :: l' => sorted_insert x (sorted l')
  end.

(** How two elements compare through their keys. *)
Definition key_le (a b : A) : Prop := py_le (key a) (key b) = true.
Definition key_lt (a b : A) : Prop := py_lt (key a) (key b) = true.

End sorted.

(** ** Data model *)

(** Exceptions a run can end with: the two the module itself can raise
    (indexing [results[0]], subscripting [doc.metadata]) and whatever a
    collaborator raises. *)
Inductive exn :=
  | IndexError
  | KeyError (k : string)
  | External (msg : string).

Inductive result (A : Type) :=
  | Ok (a : A)
  | Raise (e : exn).
Arguments Ok {A} a.
Arguments Raise {A} e.

(** The class of a document object; the module only ever asks
    [isinstance(doc, PDFDocument)]. *)
Inductive DocumentClass := PDFDocument | HTMLDocument.

(** The two entries of [doc.metadata] the module reads; [None] stands for a
    key that is not in the dict. *)
Record Metadata := {
  date : option (Z * Z * Z);
  contains_ord_info : option bool
}.

Record Document := {
  doc_class : DocumentClass;
  text : string;
  metadata : Metadata
}.

(** [elm.ords.utilities.location.Location], as far as it is read here. *)
Record Location := {
  full_name : string;
  name : string;
  state : string
}.

#[export] Instance exn_eq_dec : EqDecision exn.
Proof. solve_decision. Defined.
#[export] Instance DocumentClass_eq_dec : EqDecision DocumentClass.
Proof. solve_decision. Defined.
#[export] Instance Metadata_eq_dec : EqDecision Metadata.
Proof. solve_decision. Defined.
#[export] Instance Document_eq_dec : EqDecision Document.
Proof. solve_decision. Defined.

Definition isinstance_PDFDocument (doc : Document) : bool :=
  match doc_class doc with PDFDocument => true | HTMLDocument => false end.

(** [len(doc.text)] *)
Definition len_text (doc : Document) : Z := Z.of_nat (String.length (text doc)).

(** ** Query templates

    A format string is kept as its parsed fields: literal text and the
    replacement field [{location}]. *)

Inductive field := Lit (s : string) | LocationField.

Definition dq : string := String "034"%char EmptyString.

Definition QUESTION_TEMPLATES : list (list field) := [
  [Lit ("0. " +:+ dq +:+ "wind energy conversion system zoning ordinances ");
   LocationField; Lit dq];
  [Lit ("1. " +:+ dq); LocationField; Lit (" wind WECS zoning ordinance" +:+ dq)];
  [Lit ("2. " +:+ dq +:+ "Where can I find the legal text for commercial wind energy conversion system zoning ordinances in ");
   LocationField; Lit ("?" +:+ dq)];
  [Lit ("3. " +:+ dq +:+ "What is the specific legal information regarding zoning ordinances for commercial wind energy conversion systems in ");
   LocationField; Lit ("?" +:+ dq)]
].

(** [question.format(location=location)] *)
Fixpoint format (question : list field) (location : string) : string :=
  match question with
  | [] => EmptyString
  | Lit s :: rest => s +:+ format rest location
  | LocationField :: rest => location +:+ format rest location
  end.

(** ** Collaborators and the effects of a run

    The search engine, the file loader and the two LLM-backed checks live
    outside this module.  A run is taken against fixed responses of theirs;
    each may raise.  The two [asyncio.gather] fan-outs also depend on the
    order in which their tasks happen to finish, which the event loop
    decides: it is part of the environment as a list of task indices. *)

Record Collaborators := {
  (** [search_engine.results(query, num_results=n)] of a
      [PlaywrightGoogleLinkSearch]:
      one list of links per query given *)
  search : string → Z → result (list (list string));
  (** [file_loader.fetch_all] on the URLs of the set *)
  fetch_all : gset string → result (list Document);
  (** [county_validator.check(doc, county=county, state=state)] *)
  county_check : Document → string → string → result bool;
  (** [check_for_ordinance_info(doc, text_splitter, ...)] *)
  check_for_ordinance_info : Document → result Document;
  search_finish_order : list nat;
  check_finish_order : list nat
}.

(** What a run does to the outside world, in order. *)
Inductive event :=
  | SearchCall (query : string) (num_results : Z)
  | FetchAllCall (urls : gset string)
  | CountyCheckCall (doc : Document) (county state : string)
  | OrdInfoCall (doc : Document)
  | LogInfo (count : Z) (location : string).

(** A coroutine of the module: it extends the trace of external calls and
    returns or raises. *)
Definition M (A : Type) : Type := list event → result A * list event.

#[export] Instance M_ret : MRet M := λ A a t, (Ok a, t).

#[export] Instance M_bind : MBind M := λ A B f m t,
  match m t with
  | (Ok a, t') => f a t'
  | (Raise e, t') => (Raise e, t')
  end.

(** A pure step that may raise. *)
Definition lift {A} (r : result A) : M A := λ t, (r, t).

(** An external call: recorded, then answered. *)
Definition call {A} (ev : event) (r : result A) : M A := λ t, (r, t ++ [ev]).

(** *** [asyncio.gather]

    [outcomes] are the tasks' outcomes in the order the tasks were passed,
    [order] the order in which they finish.  The first exception raised is
    the one propagated; when nothing is raised the results come back in the
    order the tasks were passed. *)

Fixpoint first_raised {A} (order : list nat) (outcomes : list (result A))
  : option exn :=
  match order with
  | [] => None
  | i :: order' =>
      match outcomes !! i with
      | Some (Raise e) => Some e
      | _ => first_raised order' outcomes
      end
  end.

Fixpoint collect {A} (outcomes : list (result A)) : result (list A) :=
  match outcomes with
  | [] => Ok []
  | Raise e :: _ => Raise e
  | Ok a :: rest =>
      match collect rest with
      | Ok l => Ok (a :: l)
      | Raise e => Raise e
      end
  end.

Definition gather {A} (order : list nat) (outcomes : list (result A))
  : result (list A) :=
  match first_raised order outcomes with
  | Some e => Raise e
  | None => collect outcomes
  end.

(** ** URL down-selection *)

(** [itertools.zip_longest] over the lists: one tuple per rank, with [None] where
    a list is exhausted. *)
Definition zip_longest {A} (lists : list (list A)) : list (list (option A)) :=
  (λ i, (λ l, l !! i) <$> lists) <$> seq 0 (max_list (length <$> lists)).

(** [chain.from_iterable(zip_longest(...))]: the order in which the loop
    meets the entries. *)
Definition all_urls_of (lists : list (list string)) : list (option string) :=
  mjoin (zip_longest lists).

(** [[results[0] for results in search_results]] *)
Fixpoint first_results (search_results : list (list (list string)))
  : result (list (list string)) :=
  match search_results with
  | [] => Ok []
  | [] :: _ => Raise IndexError
  | (urls :: _) :: rest =>
      match first_results rest with
      | Ok lists => Ok (urls :: lists)
      | Raise e => Raise e
      end
  end.

(** The [for url in all_urls] loop; [urls] is the set built so far. *)
Fixpoint select_loop (num_urls : Z) (all_urls : list (option string))
    (urls : gset string) : gset string :=
  match all_urls with
  | [] => urls
  | None :: rest => select_loop num_urls rest urls
  | Some url :: rest =>
      if decide (url = "") then select_loop num_urls rest urls
      else
        let urls := {[url]} ∪ urls in
        if decide (Z.of_nat (size urls) = num_urls) then urls
        else select_loop num_urls rest urls
  end.

Definition _down_select_urls (search_results : list (list (list string)))
    (num_urls : Z) : result (gset string) :=
  match first_results search_results with
  | Ok lists => Ok (select_loop num_urls (all_urls_of lists) ∅)
  | Raise e => Raise e
  end.

(** The entries the loop does not skip ([if not url: continue]), in the
    order it meets them. *)
Definition kept_url (url : option string) : option string :=
  match url with
  | Some u => if decide (u = "") then None else Some u
  | None => None
  end.

Definition kept_urls (all_urls : list (option string)) : list string :=
  omap kept_url all_urls.

(** ** Best-match selection *)

(** [doc.metadata.get("date", (-1, -1, -1))] *)
Definition get_date (doc : Document) : Z * Z * Z :=
  default (-1, -1, -1) (date (metadata doc)).

Definition _ord_doc_sorting_key (doc : Document) : Z * bool * Z * Z * Z :=
  let '(year, month, day) := get_date doc in
  (year, isinstance_PDFDocument doc, -1 * len_text doc, month, day).

(** [None] is Python's [None]; [Raise IndexError] is what [[-1]] does on an
    empty list. *)
Definition _parse_all_ord_docs (all_ord_docs : list Document)
  : result (option Document) :=
  if bool_decide (all_ord_docs = []) then Ok None
  else match last (sorted _ord_doc_sorting_key all_ord_docs) with
       | Some doc => Ok (Some doc)
       | None => Raise IndexError
       end.

Definition year (doc : Document) : Z := (get_date doc).1.1.
Definition month (doc : Document) : Z := (get_date doc).1.2.
Definition day (doc : Document) : Z := (get_date doc).2.

(** The tie-break order in words: [d] does not beat [r]. *)
Definition not_better (d r : Document) : Prop :=
  year d < year r
  ∨ year d = year r
    ∧ (isinstance_PDFDocument d = false ∧ isinstance_PDFDocument r = true
       ∨ isinstance_PDFDocument d = isinstance_PDFDocument r
         ∧ (len_text r < len_text d
            ∨ len_text d = len_text r
              ∧ (month d < month r
                 ∨ month d = month r ∧ day d <= day r))).

(** [r] strictly beats [d]. *)
Definition worse (d r : Document) : Prop :=
  year d < year r
  ∨ year d = year r
    ∧ (isinstance_PDFDocument d = false ∧ isinstance_PDFDocument r = true
       ∨ isinstance_PDFDocument d = isinstance_PDFDocument r
         ∧ (len_text r < len_text d
            ∨ len_text d = len_text r
              ∧ (month d < month r
                 ∨ month d = month r ∧ day d < day r))).

(** ** The coroutines *)

Section pipeline.
Context (env : Collaborators).

Definition _search_single (location : string) (question : list field)
    (num_results : Z) : result (list (list string)) :=
  search env (format question location) num_results.

(** Every task is started, in the order of the templates, before the
    gathered outcome is known. *)
Definition _find_urls (location : string) (num_results : Z)
  : M (list (list (list string))) :=
  λ t,
    (gather (search_finish_order env)
       ((λ q, _search_single location q num_results) <$> QUESTION_TEMPLATES),
     t ++ ((λ q, SearchCall (format q location) num_results)
             <$> QUESTION_TEMPLATES)).

Definition _load_docs (urls : gset string) : M (list Document) :=
  call (FetchAllCall urls) (fetch_all env urls).

(** The key of the jurisdiction filter's [sorted]. *)
Definition correct_location_key (doc : Document) : bool * Z :=
  (negb (isinstance_PDFDocument doc), len_text doc).

(** [[doc for doc, check in zip(docs, output) if check]] *)
Definition keep_checked (docs : list Document) (output : list bool)
  : list Document :=
  fst <$> filter (λ p, p.2 = true) (zip docs output).

Definition _down_select_docs_correct_location (docs : list Document)
    (location county state : string) : M (list Document) :=
  λ t,
    (match gather (check_finish_order env)
             ((λ doc, county_check env doc county state) <$> docs) with
     | Ok output => Ok (sorted correct_location_key (keep_checked docs output))
     | Raise e => Raise e
     end,
     t ++ ((λ doc, CountyCheckCall doc county state) <$> docs)).

(** [doc.metadata["contains_ord_info"]] *)
Definition get_contains_ord_info (doc : Document) : result bool :=
  match contains_ord_info (metadata doc) with
  | Some b => Ok b
  | None => Raise (KeyError "contains_ord_info")
  end.

(** The [for doc in docs] loop of [_check_docs_for_ords]. *)
Fixpoint check_docs_loop (docs ord_docs : list Document) : M (list Document) :=
  match docs with
  | [] => mret ord_docs
  | doc :: rest =>
      doc ← call (OrdInfoCall doc) (check_for_ordinance_info env doc);
      flag ← lift (get_contains_ord_info doc);
      if flag : bool then check_docs_loop rest (ord_docs ++ [doc])
      else check_docs_loop rest ord_docs
  end.

Definition _check_docs_for_ords (docs : list Document) : M (list Document) :=
  check_docs_loop docs [].

Definition logger_info (count : Z) (location : string) : M unit :=
  λ t, (Ok tt, t ++ [LogInfo count location]).

Definition download_county_ordinance (location : Location) (num_urls : Z)
  : M (option Document) :=
  urls ← _find_urls (full_name location) 10;
  urls ← lift (_down_select_urls urls num_urls);
  docs ← _load_docs urls;
  docs ← _down_select_docs_correct_location docs
           (full_name location) (name location) (state location);
  docs ← _check_docs_for_ords docs;
  _ ← logger_info (Z.of_nat (length docs)) (full_name location);
  lift (_parse_all_ord_docs docs).

End pipeline.

(** The calls to the two LLM-backed checks among the events of a trace. *)
Definition is_classifier_call (ev : event) : bool :=
  match ev with
  | CountyCheckCall _ _ _ | OrdInfoCall _ => true
  | SearchCall _ _ | FetchAllCall _ | LogInfo _ _ => false
  end.

Definition classifier_calls (t : list event) : list event :=
  filter (λ ev, is_classifier_call ev = true) t.

(** [doc.metadata["contains_ord_info"]] is there and true. *)
Definition has_ord_info (doc : Document) : Prop :=
  contains_ord_info (metadata doc) = Some true.

(** ** The jurisdiction filter's order as the specification words it

    "ascending by the pair (document is of the PDF-like format, text
    length)", to be compared with [correct_location_key]. *)
Definition spec_location_key (doc : Document) : bool * Z :=
  (isinstance_PDFDocument doc, len_text doc).

(** ** Sample data *)

Definition sample_doc (c : DocumentClass) (txt : string)
    (d : option (Z * Z * Z)) : Document :=
  {| doc_class := c; text := txt;
     metadata := {| date := d; contains_ord_info := None |} |}.

Definition sample_pdf : Document := sample_doc PDFDocument "ordinance text" None.
Definition sample_html : Document := sample_doc HTMLDocument "page" None.

(** A content check that finds ordinance text in PDF documents only and
    dates what it finds. *)
Definition sample_ord_check (doc : Document) : Document :=
  {| doc_class := doc_class doc; text := text doc;
     metadata := {| date := if isinstance_PDFDocument doc
                            then Some (2020, 6, 1) else date (metadata doc);
                    contains_ord_info := Some (isinstance_PDFDocument doc) |} |}.

Definition sample_location : Location :=
  {| full_name := "Box Elder County, Utah"; name := "Box Elder"; state := "Utah" |}.

Definition sample_links : list (list string) :=
  [["https://a.example/ordinance.pdf"; "https://b.example/zoning"]].

(** Every collaborator answers. *)
Definition sample_env : Collaborators :=
  {| search := λ _ _, Ok sample_links;
     fetch_all := λ _, Ok [sample_html; sample_pdf];
     county_check := λ _ _ _, Ok true;
     check_for_ordinance_info := λ doc, Ok (sample_ord_check doc);
     search_finish_order := [2; 0; 3; 1]%nat;
     check_finish_order := [1; 0]%nat |}.

(** The search engine raises on every query. *)
Definition sample_env_search_down : Collaborators :=
  {| search := λ _ _, Raise (External "search timed out");
     fetch_all := fetch_all sample_env;
     county_check := county_check sample_env;
     check_for_ordinance_info := check_for_ordinance_info sample_env;
     search_finish_order := search_finish_order sample_env;
     check_finish_order := check_finish_order sample_env |}.

(** The jurisdiction check raises on HTML documents. *)
Definition sample_env_check_down : Collaborators :=
  {| search := search sample_env;
     fetch_all := fetch_all sample_env;
     county_check := λ doc _ _,
       if isinstance_PDFDocument doc then Ok true
       else Raise (External "LLM call failed");
     check_for_ordinance_info := check_for_ordinance_info sample_env;
     search_finish_order := search_finish_order sample_env;
     check_finish_order := check_finish_order sample_env |}.

(** The loader fetches nothing. *)
Definition sample_env_no_docs : Collaborators :=
  {| search := search sample_env;
     fetch_all := λ _, Ok [];
     county_check := county_check sample_env;
     check_for_ordinance_info := check_for_ordinance_info sample_env;
     search_finish_order := search_finish_order sample_env;
     check_finish_order := check_finish_order sample_env |}.

(** The search engine finds no link. *)
Definition sample_env_no_links : Collaborators :=
  {| search := λ _ _, Ok [[]];
     fetch_all := λ _, Ok [];
     county_check := county_check sample_env;
     check_for_ordinance_info := check_for_ordinance_info sample_env;
     search_finish_order := search_finish_order sample_env;
     check_finish_order := check_finish_order sample_env |}.

(** No document is about the county. *)
Definition sample_env_wrong_county : Collaborators :=
  {| search := search sample_env;
     fetch_all := fetch_all sample_env;
     county_check := λ _ _ _, Ok false;
     check_for_ordinance_info := check_for_ordinance_info sample_env;
     search_finish_order := search_finish_order sample_env;
     check_finish_order := check_finish_order sample_env |}.

(** The content check finds nothing in what the loader fetches. *)
Definition sample_env_no_ord : Collaborators :=
  {| search := search sample_env;
     fetch_all := λ _, Ok [sample_html];
     county_check := county_check sample_env;
     check_for_ordinance_info := check_for_ordinance_info sample_env;
     search_finish_order := search_finish_order sample_env;
     check_finish_order := check_finish_order sample_env |}.

Definition sample_urls : gset string :=
  {["https://a.example/ordinance.pdf"; "https://b.example/zoning"]}.

(** Documents with a text of a given length, for the selection examples. *)
Fixpoint text_of_length (n : nat) : string :=
  match n with
  | O => EmptyString
  | S n' => String "x"%char (text_of_length n')
  end.

Definition dated_doc (c : DocumentClass) (len : nat) (y : Z) : Document :=
  sample_doc c (text_of_length len) (Some (y, 1, 1)).

(** Two documents with the same key and different texts. *)
Definition tie_first : Document := sample_doc PDFDocument "first" (Some (2021, 3, 9)).
Definition tie_second : Document := sample_doc PDFDocument "later" (Some (2021, 3, 9)).

(** The content check raises on PDF documents. *)
Definition sample_env_ord_down : Collaborators :=
  {| search := search sample_env;
     fetch_all := fetch_all sample_env;
     county_check := county_check sample_env;
     check_for_ordinance_info := λ doc,
       if isinstance_PDFDocument doc then Raise (External "LLM call failed")
       else Ok (sample_ord_check doc);
     search_finish_order := search_finish_order sample_env;
     check_finish_order := check_finish_order sample_env |}.

(** The content check hands PDF documents back without the flag. *)
Definition sample_env_no_flag : Collaborators :=
  {| search := search sample_env;
     fetch_all := fetch_all sample_env;
     county_check := county_check sample_env;
     check_for_ordinance_info := λ doc,
       if isinstance_PDFDocument doc then Ok doc else Ok (sample_ord_check doc);
     search_finish_order := search_finish_order sample_env;
     check_finish_order := check_finish_order sample_env |}.

(** The loader raises. *)
Definition sample_env_loader_down : Collaborators :=
  {| search := search sample_env;
     fetch_all := λ _, Raise (External "no browser");
     county_check := county_check sample_env;
     check_for_ordinance_info := check_for_ordinance_info sample_env;
     search_finish_order := search_finish_order sample_env;
     check_finish_order := check_finish_order sample_env |}.

(** One search comes back with no link list at all. *)
Definition sample_env_no_list : Collaborators :=
  {| search := λ _ _, Ok [];
     fetch_all := fetch_all sample_env;
     county_check := county_check sample_env;
     check_for_ordinance_info := check_for_ordinance_info sample_env;
     search_finish_order := search_finish_order sample_env;
     check_finish_order := check_finish_order sample_env |}.

(** The jurisdiction check lets PDF documents through only. *)
Definition sample_env_pdf_county : Collaborators :=
  {| search := search sample_env;
     fetch_all := fetch_all sample_env;
     county_check := λ doc _ _, Ok (isinstance_PDFDocument doc);
     check_for_ordinance_info := check_for_ordinance_info sample_env;
     search_finish_order := search_finish_order sample_env;
     check_finish_order := check_finish_order sample_env |}.

(** The same collaborators with the tasks of the two fan-outs finishing in
    another order. *)
Definition with_finish_orders (env : Collaborators)
    (search_order check_order : list nat) : Collaborators :=
  {| search := search env;
     fetch_all := fetch_all env;
     county_check := county_check env;
     check_for_ordinance_info := check_for_ordinance_info env;
     search_finish_order := search_order;
     check_finish_order := check_order |}.

(** ** PDF text ([elm/pdf.py])

    A [str] is a sequence of code points.  The two pure helpers of
    [PDFtoTXT] that work on page text are embedded: [combine_pages] and the
    [replace_chars_for_clean] of [validate_clean]. *)

Module PDFtoTXT.

Abbreviation str := (list N).

Definition newline : N := 10%N.
Definition space : N := 32%N.
Definition hyphen : N := 45%N.
Definition bullet : N := 8226%N.

(** [s.startswith(old)] *)
Fixpoint startswith (old s : str) : bool :=
  match old, s with
  | [], _ => true
  | _ :: _, [] => false
  | o :: old', c :: s' => if (o =? c)%N then startswith old' s' else false
  end.

(** The scan of [s.replace(old, new)] for a non-empty [old]: occurrences
    are taken from the left and do not overlap; [skip] counts the
    characters of a replaced occurrence still to be passed over. *)
Fixpoint replace_from (old new : str) (skip : nat) (s : str) : str :=
  match s with
  | [] => []
  | c :: s' =>
      match skip with
      | S k => replace_from old new k s'
      | O =>
          if startswith old s
          then new ++ replace_from old new (length old - 1) s'
          else c :: replace_from old new 0 s'
      end
  end.

(** [s.replace(old, new)]; an empty [old] matches before every character
    and at the end. *)
Definition replace (old new s : str) : str :=
  match old with
  | [] => new ++ flat_map (λ c, c :: new) s
  | _ :: _ => replace_from old new 0 s
  end.

(** [sep.join(pages)] *)
Fixpoint join (sep : str) (pages : list str) : str :=
  match pages with
  | [] => []
  | page :: rest =>
      match rest with
      | [] => page
      | _ :: _ => page ++ sep ++ join sep rest
      end
  end.

Definition combine_pages (pages : list str) : str :=
  let full := join [newline] pages in
  let full := replace [newline; bullet] [hyphen] full in
  let full := replace [bullet] [hyphen] full in
  full.

(** [repl] of [validate_clean]: newline, full stop, comma, hyphen, slash
    and colon. *)
Definition repl : list N := [10; 46; 44; 45; 47; 58]%N.

(** [for char in repl: text = text.replace(char, ' ')] *)
Definition replace_chars_for_clean (text : str) : str :=
  foldl (λ text char, replace [char] [space] text) text repl.

End PDFtoTXT.

(** * Properties *)

(** ** The ordering protocol on the keys *)

#[export] Instance int_ord : PyOrd Z.
Proof. split; unfold py_lt, int_lt; intros; lia. Qed.

#[export] Instance bool_ord : PyOrd bool.
Proof.
  split; unfold py_lt, bool_lt.
  - intros []; reflexivity.
  - intros [] [] []; cbv; congruence.
  - intros [] []; cbv; congruence.
Qed.

#[export] Instance tuple_ord {A B} `{EqDecision A, PyOrd A, PyOrd B} : PyOrd (A * B).
Proof.
  split; unfold py_lt, tuple_lt.
  - intros [a b]; simpl. rewrite decide_True by done. apply py_lt_irrefl.
  - intros [a1 b1] [a2 b2] [a3 b3]; simpl.
    repeat case_decide; simplify_eq; intros H12 H23;
      try done; try (by eapply py_lt_trans).
    pose proof (py_lt_trans _ _ _ H12 H23) as Hc.
    by rewrite py_lt_irrefl in Hc.
  - intros [a1 b1] [a2 b2]; simpl.
    repeat case_decide; simplify_eq; intros H12 H21.
    + f_equal. by apply py_lt_total.
    + exfalso. eauto using py_lt_total.
Qed.

Lemma tuple_lt_iff {A B} `{EqDecision A, PyOrd A, PyLt B} (a a' : A) (b b' : B) :
  py_lt (a, b) (a', b') = true
  ↔ py_lt a a' = true ∨ a = a' ∧ py_lt b b' = true.
Proof.
  unfold py_lt at 1, tuple_lt; simpl. case_decide as Ha; subst.
  - rewrite py_lt_irrefl. intuition discriminate.
  - intuition congruence.
Qed.

Section py_ord_facts.
Context {K} `{PyOrd K}.

Lemma py_lt_asym (a b : K) : py_lt a b = true → py_lt b a = false.
Proof.
  intros Hab. destruct (py_lt b a) eqn:Hba; [|done].
  by rewrite <- (py_lt_irrefl a), (py_lt_trans _ _ _ Hab Hba).
Qed.

Lemma py_lt_le_trans (a b c : K) :
  py_lt a b = true → py_le b c = true → py_lt a c = true.
Proof.
  unfold py_le. intros Hab Hbc%negb_true_iff.
  destruct (py_lt b c) eqn:Hlt; [by eapply py_lt_trans|].
  by rewrite <- (py_lt_total _ _ Hlt Hbc).
Qed.

Lemma py_le_lt_trans (a b c : K) :
  py_le a b = true → py_lt b c = true → py_lt a c = true.
Proof.
  unfold py_le. intros Hab%negb_true_iff Hbc.
  destruct (py_lt a b) eqn:Hlt; [by eapply py_lt_trans|].
  by rewrite (py_lt_total _ _ Hlt Hab).
Qed.

Lemma py_le_trans (a b c : K) :
  py_le a b = true → py_le b c = true → py_le a c = true.
Proof.
  intros Hab Hbc. unfold py_le. apply negb_true_iff.
  destruct (py_lt c a) eqn:Hca; [|done].
  pose proof (py_lt_le_trans _ _ _ Hca Hab) as Hcb.
  unfold py_le in Hbc. by rewrite Hcb in Hbc.
Qed.

Lemma py_lt_le (a b : K) : py_lt a b = true → py_le a b = true.
Proof. intros Hab. unfold py_le. by rewrite (py_lt_asym _ _ Hab). Qed.

Lemma py_le_refl (a : K) : py_le a a = true.
Proof. unfold py_le. by rewrite py_lt_irrefl. Qed.
End py_ord_facts.

(** ** Facts about [sorted] *)

Section sorted_facts.
Context {A K : Type} `{PyOrd K} (key : A → K).

Lemma sorted_insert_perm (x : A) (l : list A) :
  sorted_insert key x l ≡ₚ x :: l.
Proof.
  induction l as [|y l IH]; simpl; [done|].
  destruct (py_lt (key y) (key x)); [|done].
  rewrite IH. apply Permutation_swap.
Qed.

Lemma sorted_perm (l : list A) : sorted key l ≡ₚ l.
Proof.
  induction l as [|x l IH]; simpl; [done|].
  by rewrite sorted_insert_perm, IH.
Qed.

Lemma sorted_insert_sorted (x : A) (l : list A) :
  StronglySorted (key_le key) l →
  StronglySorted (key_le key) (sorted_insert key x l).
Proof.
  induction 1 as [|y l Hl IH Hy]; simpl.
  - repeat constructor.
  - destruct (py_lt (key y) (key x)) eqn:Hlt.
    + constructor; [done|].
      rewrite sorted_insert_perm. constructor; [|done].
      by apply py_lt_le.
    + assert (key_le key x y) as Hxy by (unfold key_le, py_le; by rewrite Hlt).
      constructor; [by constructor|].
      constructor; [done|].
      eapply Forall_impl; [exact Hy|].
      intros z Hyz. unfold key_le in *. by eapply py_le_trans.
Qed.

Lemma sorted_sorted (l : list A) : StronglySorted (key_le key) (sorted key l).
Proof.
  induction l as [|x l IH]; simpl; [constructor|].
  by apply sorted_insert_sorted.
Qed.

(** Stability: the elements carrying any one key keep their input order. *)
Lemma sorted_insert_stable `{EqDecision K} (k : K) (x : A) (l : list A) :
  filter (λ y, key y = k) (sorted_insert key x l)
  = filter (λ y, key y = k) (x :: l).
Proof.
  induction l as [|y l IH]; simpl; [done|].
  destruct (py_lt (key y) (key x)) eqn:Hlt; [|done].
  rewrite filter_cons, IH, !filter_cons.
  destruct (decide (key y = k)) as [Hy|Hy], (decide (key x = k)) as [Hx|Hx];
    try done.
  rewrite Hy, Hx in Hlt. by rewrite py_lt_irrefl in Hlt.
Qed.

Lemma sorted_stable `{EqDecision K} (k : K) (l : list A) :
  filter (λ y, key y = k) (sorted key l) = filter (λ y, key y = k) l.
Proof.
  induction l as [|x l IH]; simpl; [done|].
  by rewrite sorted_insert_stable, !filter_cons, IH.
Qed.

(** Sortedness and stability leave no choice: any stable ascending sort
    returns what [sorted] returns. *)
Lemma stable_sorted_unique `{EqDecision K} (l1 l2 : list A) :
  StronglySorted (key_le key) l1 →
  StronglySorted (key_le key) l2 →
  (∀ k, filter (λ y, key y = k) l1 = filter (λ y, key y = k) l2) →
  l1 = l2.
Proof.
  revert l2. induction l1 as [|x l1 IH]; intros l2 H1 H2 Hf.
  - destruct l2 as [|y l2]; [done|].
    specialize (Hf (key y)). by rewrite filter_cons, decide_True in Hf.
  - destruct l2 as [|y l2].
    { specialize (Hf (key x)). by rewrite filter_cons, decide_True in Hf. }
    apply StronglySorted_inv in H1 as [H1 Hx].
    apply StronglySorted_inv in H2 as [H2 Hy].
    rewrite Forall_forall in Hx, Hy.
    assert (key_le key x y) as Hxy.
    { assert (y ∈ x :: l1) as [->|Hin]%elem_of_cons.
      { eapply (list_elem_of_filter (λ z, key z = key y)).
        rewrite Hf, filter_cons, decide_True by done. left. }
      - apply py_le_refl.
      - by apply Hx. }
    assert (key_le key y x) as Hyx.
    { assert (x ∈ y :: l2) as [->|Hin]%elem_of_cons.
      { eapply (list_elem_of_filter (λ z, key z = key x)).
        rewrite <- Hf, filter_cons, decide_True by done. left. }
      - apply py_le_refl.
      - by apply Hy. }
    assert (key y = key x) as Hk.
    { unfold key_le, py_le in Hxy, Hyx.
      apply negb_true_iff in Hxy, Hyx. by apply py_lt_total. }
    pose proof (Hf (key x)) as Hhead.
    rewrite !filter_cons, decide_True, (decide_True (P:=key y = key x))
      in Hhead by done.
    injection Hhead as -> Htail. f_equal.
    apply IH; [done..|]. intros k. specialize (Hf k).
    rewrite !filter_cons in Hf.
    destruct (decide (key y = k)); [by injection Hf|done].
Qed.

Lemma sorted_unique `{EqDecision K} (l l' : list A) :
  StronglySorted (key_le key) l' →
  (∀ k, filter (λ y, key y = k) l' = filter (λ y, key y = k) l) →
  l' = sorted key l.
Proof.
  intros Hs Hf. apply stable_sorted_unique; [done|apply sorted_sorted|].
  intros k. by rewrite sorted_stable.
Qed.

(** Where the last element of the sorted list comes from. *)
Lemma last_sorted_insert (x : A) (l : list A) :
  StronglySorted (key_le key) l →
  last (sorted_insert key x l)
  = match last l with
    | None => Some x
    | Some m => if py_lt (key m) (key x) then Some x else Some m
    end.
Proof.
  induction 1 as [|y l Hl IH Hy]; simpl; [done|].
  destruct (py_lt (key y) (key x)) eqn:Hlt.
  - rewrite !last_cons, IH.
    destruct (last l) as [m|]; [|by rewrite Hlt].
    by destruct (py_lt (key m) (key x)).
  - rewrite last_cons.
    destruct (last (y :: l)) as [m|] eqn:Hm; [|by rewrite last_cons in Hm; destruct (last l)].
    assert (key_le key y m) as Hym.
    { rewrite last_cons in Hm. destruct (last l) as [m'|] eqn:Hm'.
      - simplify_eq. rewrite Forall_forall in Hy. apply Hy.
        apply last_Some in Hm' as [l' ->]. set_solver.
      - simplify_eq. apply py_le_refl. }
    assert (py_le (key x) (key m) = true) as Hxm.
    { eapply py_le_trans; [|exact Hym]. unfold py_le. by rewrite Hlt. }
    unfold py_le in Hxm. apply negb_true_iff in Hxm. by rewrite Hxm.
Qed.

Lemma last_sorted_cons (x : A) (l : list A) :
  last (sorted key (x :: l))
  = match last (sorted key l) with
    | None => Some x
    | Some m => if py_lt (key m) (key x) then Some x else Some m
    end.
Proof. simpl. apply last_sorted_insert, sorted_sorted. Qed.

Lemma sorted_nil_inv (l : list A) : sorted key l = [] → l = [].
Proof.
  intros Hs. apply Permutation_nil_r. by rewrite <- Hs, sorted_perm.
Qed.

(** The last element of [sorted l] is the latest element of [l] among
    those with the greatest key. *)
Lemma last_sorted_split (l : list A) (r : A) :
  last (sorted key l) = Some r →
  ∃ l1 l2, l = l1 ++ r :: l2
           ∧ Forall (λ x, key_le key x r) l1
           ∧ Forall (λ x, key_lt key x r) l2.
Proof.
  revert r. induction l as [|x l IH]; intros r; [done|].
  rewrite last_sorted_cons.
  destruct (last (sorted key l)) as [m|] eqn:Hm.
  - destruct (IH m eq_refl) as (l1 & l2 & -> & H1 & H2).
    destruct (py_lt (key m) (key x)) eqn:Hlt; intros [= <-].
    + exists [], (l1 ++ m :: l2). split_and!; [done|constructor|].
      rewrite Forall_app, Forall_cons. split_and!; [|done|].
      * eapply Forall_impl; [exact H1|]. intros y Hy.
        unfold key_lt, key_le in *. by eapply py_le_lt_trans.
      * eapply Forall_impl; [exact H2|]. intros y Hy.
        unfold key_lt in *. by eapply py_lt_trans.
    + exists (x :: l1), l2. split_and!; [done| |done].
      constructor; [|done]. unfold key_le, py_le. by rewrite Hlt.
  - apply last_None in Hm. apply sorted_nil_inv in Hm as ->.
    intros [= <-]. exists [], []. by split_and!.
Qed.

Lemma last_sorted_is_Some (l : list A) : l ≠ [] → is_Some (last (sorted key l)).
Proof.
  intros Hl. destruct (last (sorted key l)) eqn:Hm; [by eexists|].
  apply last_None, sorted_nil_inv in Hm. done.
Qed.
End sorted_facts.

(** ** The best-match key in words *)

Lemma ord_key_lt_iff (d r : Document) :
  key_lt _ord_doc_sorting_key d r ↔ worse d r.
Proof.
  unfold key_lt, worse, _ord_doc_sorting_key, year, month, day, len_text.
  destruct (get_date d) as [[y1 m1] d1], (get_date r) as [[y2 m2] d2]; simpl.
  rewrite !tuple_lt_iff, !pair_eq. unfold py_lt, int_lt, bool_lt.
  rewrite !Z.ltb_lt.
  destruct (isinstance_PDFDocument d), (isinstance_PDFDocument r); simpl;
    intuition (try discriminate; lia).
Qed.

Lemma ord_key_le_iff (d r : Document) :
  key_le _ord_doc_sorting_key d r ↔ not_better d r.
Proof.
  unfold key_le, py_le. rewrite negb_true_iff, <- not_true_iff_false.
  unfold not_better, _ord_doc_sorting_key, year, month, day, len_text.
  destruct (get_date d) as [[y1 m1] d1], (get_date r) as [[y2 m2] d2]; simpl.
  rewrite !tuple_lt_iff, !pair_eq. unfold py_lt, int_lt, bool_lt.
  rewrite !Z.ltb_lt.
  destruct (isinstance_PDFDocument d), (isinstance_PDFDocument r); simpl;
    intuition (try discriminate; lia).
Qed.

Lemma ord_key_eq_not_worse (d r : Document) :
  _ord_doc_sorting_key d = _ord_doc_sorting_key r → ¬ worse d r.
Proof.
  intros Heq Hw%ord_key_lt_iff. unfold key_lt in Hw.
  by rewrite Heq, py_lt_irrefl in Hw.
Qed.

(** ** Best-match selection *)

(** C8: the best-match selection of an empty list of documents is the
    none-found value, Python's [None]. *)
Theorem parse_all_ord_docs_empty : _parse_all_ord_docs [] = Ok None.
Proof. reflexivity. Qed.

Lemma parse_all_ord_docs_last (docs : list Document) :
  docs ≠ [] →
  ∃ best, last (sorted _ord_doc_sorting_key docs) = Some best
          ∧ _parse_all_ord_docs docs = Ok (Some best).
Proof.
  intros Hne. destruct (last_sorted_is_Some _ord_doc_sorting_key docs Hne)
    as [best Hbest].
  exists best. split; [done|].
  unfold _parse_all_ord_docs. rewrite bool_decide_eq_false_2 by done.
  by rewrite Hbest.
Qed.

(** C1: on a non-empty list the selection returns a document of the list
    that no document of the list beats under the key (year, is-PDF, minus
    text length, month, day), the date parts being those of the metadata or
    -1 each when there is no date.  It is the last element of the list
    sorted ascending by that key, so a later year wins, then PDF over
    non-PDF, then the shorter text, then the later month, then the later
    day. *)
Theorem parse_all_ord_docs_max (docs : list Document) :
  docs ≠ [] →
  ∃ best,
    _parse_all_ord_docs docs = Ok (Some best)
    ∧ best ∈ docs
    ∧ last (sorted _ord_doc_sorting_key docs) = Some best
    ∧ StronglySorted (key_le _ord_doc_sorting_key)
        (sorted _ord_doc_sorting_key docs)
    ∧ sorted _ord_doc_sorting_key docs ≡ₚ docs
    ∧ (∀ d, d ∈ docs → not_better d best)
    ∧ (∀ d, d ∈ docs →
         _ord_doc_sorting_key d
         = match date (metadata d) with
           | Some (y, m, dd) =>
               (y, isinstance_PDFDocument d, - len_text d, m, dd)
           | None => (-1, isinstance_PDFDocument d, - len_text d, -1, -1)
           end).
Proof.
  intros Hne. destruct (parse_all_ord_docs_last docs Hne) as (best & Hlast & Hret).
  exists best.
  destruct (last_sorted_split _ _ _ Hlast) as (l1 & l2 & Hdocs & H1 & H2).
  split_and!; [done| |done|apply sorted_sorted|apply sorted_perm| |].
  - rewrite Hdocs. set_solver.
  - intros d Hd. apply ord_key_le_iff.
    rewrite Hdocs, elem_of_app, elem_of_cons in Hd.
    rewrite Forall_forall in H1, H2.
    destruct Hd as [Hd|[->|Hd]]; [by apply H1|apply py_le_refl|].
    apply py_lt_le, (H2 _ Hd).
  - intros d _. unfold _ord_doc_sorting_key, get_date.
    destruct (date (metadata d)) as [[[y m] dd]|]; simpl; f_equal; lia.
Qed.

(** C10: on a non-empty list the selection returns a document of the list,
    and every document that comes after it in the input is strictly worse
    under the key: among the documents that share the greatest key, the
    one latest in the input is returned. *)
Theorem parse_all_ord_docs_latest_of_ties (docs : list Document) :
  docs ≠ [] →
  ∃ best before after,
    _parse_all_ord_docs docs = Ok (Some best)
    ∧ best ∈ docs
    ∧ docs = before ++ best :: after
    ∧ Forall (λ d, not_better d best) before
    ∧ Forall (λ d, worse d best) after
    ∧ Forall (λ d, _ord_doc_sorting_key d ≠ _ord_doc_sorting_key best) after.
Proof.
  intros Hne. destruct (parse_all_ord_docs_last docs Hne) as (best & Hlast & Hret).
  destruct (last_sorted_split _ _ _ Hlast) as (l1 & l2 & Hdocs & H1 & H2).
  exists best, l1, l2. split_and!; [done| |done| | |].
  - rewrite Hdocs. set_solver.
  - eapply Forall_impl; [exact H1|]. intros d. apply ord_key_le_iff.
  - eapply Forall_impl; [exact H2|]. intros d. apply ord_key_lt_iff.
  - eapply Forall_impl; [exact H2|]. intros d Hd%ord_key_lt_iff Heq.
    by apply (ord_key_eq_not_worse d best).
Qed.

(** ** URL down-selection *)

Section zip_longest_facts.
Context {A : Type}.
Implicit Types lists : list (list A).

Lemma zip_longest_length lists :
  length (zip_longest lists) = max_list (length <$> lists).
Proof. unfold zip_longest. by rewrite length_fmap, length_seq. Qed.

Lemma zip_longest_rows lists :
  Forall (λ row, length row = length lists) (zip_longest lists).
Proof.
  unfold zip_longest. apply Forall_fmap, Forall_forall. intros i _; simpl.
  by rewrite length_fmap.
Qed.

Lemma zip_longest_lookup lists (r : nat) :
  (r < max_list (length <$> lists))%nat →
  zip_longest lists !! r = Some ((λ l, l !! r) <$> lists).
Proof.
  intros Hr. unfold zip_longest.
  by rewrite list_lookup_fmap, lookup_seq_lt.
Qed.

(** Column-major: entry [t] of row [r] is rank [r] of list [t]. *)
Lemma zip_longest_column_major lists (t r : nat) (l : list A) :
  lists !! t = Some l →
  (r < max_list (length <$> lists))%nat →
  mjoin (zip_longest lists) !! (r * length lists + t)%nat = Some (l !! r).
Proof.
  intros Ht Hr.
  apply (join_lookup_Some_same_length' (length lists));
    [apply zip_longest_rows|by eapply lookup_lt_Some|].
  exists ((λ l, l !! r) <$> lists). split; [by apply zip_longest_lookup|].
  by rewrite list_lookup_fmap, Ht.
Qed.

Lemma zip_longest_join_length lists :
  length (mjoin (zip_longest lists))
  = (max_list (length <$> lists) * length lists)%nat.
Proof.
  rewrite length_join, (sum_list_fmap_same (length lists))
    by apply zip_longest_rows.
  by rewrite zip_longest_length.
Qed.

Lemma elem_of_zip_longest lists (x : A) :
  Some x ∈ mjoin (zip_longest lists) ↔ ∃ l, l ∈ lists ∧ x ∈ l.
Proof.
  rewrite list_elem_of_join. split.
  - intros (row & Hx & Hrow). unfold zip_longest in Hrow.
    apply list_elem_of_fmap in Hrow as (r & -> & _).
    apply list_elem_of_fmap in Hx as (l & Hx & Hl).
    exists l. split; [done|]. apply list_elem_of_lookup. by exists r.
  - intros (l & Hl & Hx). apply list_elem_of_lookup in Hx as [r Hr].
    exists ((λ l, l !! r) <$> lists). split.
    + apply list_elem_of_fmap. by exists l.
    + apply list_elem_of_lookup. exists r. apply zip_longest_lookup.
      eapply Nat.lt_le_trans; [by eapply lookup_lt_Some|].
      apply max_list_elem_of_le, list_elem_of_fmap. by exists l.
Qed.
End zip_longest_facts.

Lemma kept_url_Some (url : option string) (u : string) :
  kept_url url = Some u ↔ url = Some u ∧ u ≠ "".
Proof.
  destruct url as [v|]; simpl; [|intuition discriminate].
  case_decide; split; intros Hu; simplify_eq; try done.
  - by destruct Hu as [[= ->] ?].
  - by destruct Hu as [[= ->] ?].
Qed.

Lemma elem_of_kept_urls (all_urls : list (option string)) (u : string) :
  u ∈ kept_urls all_urls ↔ Some u ∈ all_urls ∧ u ≠ "".
Proof.
  unfold kept_urls. rewrite list_elem_of_omap. split.
  - intros (url & Hin & [-> Hu]%kept_url_Some). done.
  - intros [Hin Hu]. exists (Some u). split; [done|]. by apply kept_url_Some.
Qed.

(** The loop in terms of the entries it keeps: it stops right after the
    first insertion that brings the set to exactly [num_urls] elements. *)
Lemma select_loop_prefix (num_urls : Z) (all_urls : list (option string))
    (urls : gset string) :
  ∃ k : nat,
    (k ≤ length (kept_urls all_urls))%nat
    ∧ select_loop num_urls all_urls urls
      = list_to_set (take k (kept_urls all_urls)) ∪ urls
    ∧ (k = length (kept_urls all_urls)
       ∨ (0 < k)%nat
         ∧ Z.of_nat (size (select_loop num_urls all_urls urls)) = num_urls)
    ∧ ∀ j : nat, (0 < j < k)%nat →
        Z.of_nat (size (list_to_set (take j (kept_urls all_urls)) ∪ urls))
        ≠ num_urls.
Proof.
  revert urls. induction all_urls as [|[u|] rest IH]; intros urls; simpl.
  - exists 0%nat. split_and!; [done|set_solver|by left|lia].
  - destruct (decide (u = "")) as [->|Hu]; [apply IH|].
    destruct (decide (Z.of_nat (size ({[u]} ∪ urls)) = num_urls)) as [Hcap|Hcap].
    + exists 1%nat. simpl. split_and!; [lia|set_solver|right; split; [lia|done]|lia].
    + destruct (IH ({[u]} ∪ urls)) as (k & Hk & Heq & Hstop & Hmin).
      exists (S k). simpl. split_and!; [lia| | |].
      * rewrite Heq. set_solver.
      * destruct Hstop as [->|[_ Hsz]]; [by left|right; split; [lia|done]].
      * intros [|[|j]] Hj; [lia| |].
        -- simpl. by replace ({[u]} ∪ ∅ ∪ urls) with ({[u]} ∪ urls) by set_solver.
        -- replace (list_to_set (take (S (S j)) (u :: kept_urls rest)) ∪ urls)
             with (list_to_set (take (S j) (kept_urls rest)) ∪ ({[u]} ∪ urls))
             by (simpl; set_solver).
           apply Hmin. lia.
  - apply IH.
Qed.

Lemma select_loop_elem (num_urls : Z) (all_urls : list (option string))
    (urls : gset string) (u : string) :
  u ∈ select_loop num_urls all_urls urls →
  u ∈ urls ∨ Some u ∈ all_urls ∧ u ≠ "".
Proof.
  destruct (select_loop_prefix num_urls all_urls urls) as (k & _ & -> & _).
  rewrite elem_of_union, elem_of_list_to_set.
  intros [Hu%elem_of_take|Hu]; [|by left].
  - right. apply elem_of_kept_urls. destruct Hu as (i & Hi & _).
    apply list_elem_of_lookup. by exists i.
Qed.

(** With a positive cap the set never grows past it. *)
Lemma select_loop_size (num_urls : Z) (all_urls : list (option string))
    (urls : gset string) :
  Z.of_nat (size urls) < num_urls →
  Z.of_nat (size (select_loop num_urls all_urls urls)) ≤ num_urls.
Proof.
  revert urls. induction all_urls as [|[u|] rest IH]; intros urls Hlt; simpl.
  - lia.
  - destruct (decide (u = "")) as [->|Hu]; [by apply IH|].
    destruct (decide (Z.of_nat (size ({[u]} ∪ urls)) = num_urls)) as [Hcap|Hcap];
      [lia|].
    apply IH.
    rewrite size_union_alt, size_singleton in Hcap |- *.
    assert (size (urls ∖ {[u]}) ≤ size urls)%nat
      by (apply subseteq_size; set_solver).
    lia.
  - by apply IH.
Qed.

(** With a cap of zero or less the stop test never holds. *)
Lemma select_loop_no_cap (num_urls : Z) (all_urls : list (option string))
    (urls : gset string) :
  num_urls ≤ 0 →
  select_loop num_urls all_urls urls = list_to_set (kept_urls all_urls) ∪ urls.
Proof.
  intros Hn. revert urls.
  induction all_urls as [|[u|] rest IH]; intros urls; simpl.
  - set_solver.
  - destruct (decide (u = "")) as [->|Hu]; [apply IH|].
    destruct (decide (Z.of_nat (size ({[u]} ∪ urls)) = num_urls)) as [Hcap|Hcap].
    + assert (size ({[u]} ∪ urls) ≠ 0)%nat; [|lia].
      apply size_non_empty_iff. set_solver.
    + rewrite IH. set_solver.
  - apply IH.
Qed.

Lemma select_loop_add (num_urls : Z) (u : string)
    (rest : list (option string)) (urls : gset string) :
  u ≠ "" →
  Z.of_nat (size ({[u]} ∪ urls)) ≠ num_urls →
  select_loop num_urls (Some u :: rest) urls
  = select_loop num_urls rest ({[u]} ∪ urls).
Proof. intros Hu Hsz. simpl. by rewrite !decide_False. Qed.

Lemma select_loop_stop (num_urls : Z) (u : string)
    (rest : list (option string)) (urls : gset string) :
  u ≠ "" →
  Z.of_nat (size ({[u]} ∪ urls)) = num_urls →
  select_loop num_urls (Some u :: rest) urls = {[u]} ∪ urls.
Proof. intros Hu Hsz. simpl. by rewrite decide_False, decide_True. Qed.

Lemma down_select_urls_unfold (search_results : list (list (list string)))
    (lists : list (list string)) (num_urls : Z) :
  first_results search_results = Ok lists →
  _down_select_urls search_results num_urls
  = Ok (select_loop num_urls (all_urls_of lists) ∅).
Proof. intros Hl. unfold _down_select_urls. by rewrite Hl. Qed.

(** C3: the loop meets the URLs column-major, entry [t] of round [r] being
    rank [r] of template [t] or [None] once that template is exhausted;
    what it returns is the set of a prefix of the entries it keeps, cut
    right after the first insertion that brings the set to the cap.  For
    [[a,b],[c,d],[e,f]] and cap 4 the entries come as a,c,e,b,d,f and the
    result is the set of a, c, e and b. *)
Theorem down_select_urls_round_robin :
  (∀ (search_results : list (list (list string)))
     (lists : list (list string)) (num_urls : Z),
     first_results search_results = Ok lists →
     (∀ (t r : nat) (l : list string),
        lists !! t = Some l →
        (r < max_list (length <$> lists))%nat →
        all_urls_of lists !! (r * length lists + t)%nat = Some (l !! r))
     ∧ length (all_urls_of lists)
       = (max_list (length <$> lists) * length lists)%nat
     ∧ ∃ k : nat,
         _down_select_urls search_results num_urls
         = Ok (list_to_set (take k (kept_urls (all_urls_of lists))))
         ∧ (k = length (kept_urls (all_urls_of lists))
            ∨ (0 < k)%nat
              ∧ Z.of_nat (size (list_to_set (C:=gset string)
                                  (take k (kept_urls (all_urls_of lists)))))
                = num_urls)
         ∧ ∀ j : nat, (0 < j < k)%nat →
             Z.of_nat (size (list_to_set (C:=gset string)
                               (take j (kept_urls (all_urls_of lists)))))
             ≠ num_urls)
  ∧ (∀ a b c d e f : string,
       NoDup [a; c; e; b] →
       Forall (λ u, u ≠ "") [a; c; e; b] →
       all_urls_of [[a; b]; [c; d]; [e; f]]
       = [Some a; Some c; Some e; Some b; Some d; Some f]
       ∧ _down_select_urls [[[a; b]]; [[c; d]]; [[e; f]]] 4
         = Ok {[a; c; e; b]}).
Proof.
  split.
  - intros search_results lists num_urls Hl. split_and!.
    + intros t r l. apply zip_longest_column_major.
    + apply zip_longest_join_length.
    + rewrite (down_select_urls_unfold _ _ _ Hl).
      destruct (select_loop_prefix num_urls (all_urls_of lists) ∅)
        as (k & _ & Heq & Hstop & Hmin).
      rewrite (right_id_L ∅ (∪)) in Heq.
      exists k. split_and!.
      * by rewrite Heq.
      * by rewrite <- Heq.
      * intros j Hj. specialize (Hmin j Hj).
        by rewrite (right_id_L ∅ (∪)) in Hmin.
  - intros a b c d e f Hnd Hne. split; [reflexivity|].
    assert (a ≠ c ∧ a ≠ e ∧ a ≠ b ∧ c ≠ e ∧ c ≠ b ∧ e ≠ b)
      as (? & ? & ? & ? & ? & ?)
      by (rewrite !list.NoDup_cons in Hnd; set_solver).
    rewrite !Forall_cons in Hne.
    destruct Hne as (? & ? & ? & ? & _).
    rewrite (down_select_urls_unfold _ [[a; b]; [c; d]; [e; f]]) by done.
    change (all_urls_of [[a; b]; [c; d]; [e; f]])
      with [Some a; Some c; Some e; Some b; Some d; Some f].
    f_equal.
    rewrite select_loop_add;
      [|done|rewrite size_union, size_singleton, size_empty by set_solver; lia].
    rewrite select_loop_add;
      [|done|rewrite !size_union, !size_singleton, size_empty by set_solver; lia].
    rewrite select_loop_add;
      [|done|rewrite !size_union, !size_singleton, size_empty by set_solver; lia].
    rewrite select_loop_stop;
      [|done|rewrite !size_union, !size_singleton, size_empty by set_solver; lia].
    set_solver.
Qed.

(** X28: whatever the cap, zero and negative caps included, every URL of
    the set returned is a non-empty URL of one of the per-template lists,
    and the set has at most as many elements as there are distinct URLs,
    however many lists a URL is in; with a cap of at least one it also has
    at most [num_urls] elements. *)
Theorem down_select_urls_capped (search_results : list (list (list string)))
    (lists : list (list string)) (num_urls : Z) :
  first_results search_results = Ok lists →
  ∃ urls : gset string,
    _down_select_urls search_results num_urls = Ok urls
    ∧ (∀ u, u ∈ urls → u ≠ "" ∧ ∃ l, l ∈ lists ∧ u ∈ l)
    ∧ (size urls ≤ length (remove_dups (mjoin lists)))%nat
    ∧ (1 ≤ num_urls → Z.of_nat (size urls) ≤ num_urls).
Proof.
  intros Hl. rewrite (down_select_urls_unfold _ _ _ Hl).
  eexists. split; [done|].
  assert (∀ u, u ∈ select_loop num_urls (all_urls_of lists) ∅ →
               u ≠ "" ∧ ∃ l, l ∈ lists ∧ u ∈ l) as Hin.
  { intros u [Hu|[Hu Hne]]%select_loop_elem; [set_solver|].
    split; [done|]. by apply elem_of_zip_longest. }
  split_and!; [done| |].
  - rewrite <- (size_list_to_set (C:=gset string)) by apply NoDup_remove_dups.
    apply subseteq_size. intros u (_ & l & Hl' & Hu)%Hin.
    rewrite elem_of_list_to_set, elem_of_remove_dups, list_elem_of_join.
    by exists l.
  - intros Hn. apply select_loop_size. rewrite size_empty. lia.
Qed.

(** C4: the bound by the cap is what the loop is after, and it misses it
    for a cap of zero: the size is compared with the cap only after an
    insertion, so with one URL on offer and [num_urls = 0] the set returned
    has one element, which is more than the cap allows. *)
Lemma down_select_urls_cap_zero_exceeded :
  _down_select_urls [[["a"]]] 0 = Ok {["a"]}
  ∧ ¬ (Z.of_nat (size ({["a"]} : gset string)) ≤ 0).
Proof.
  split.
  - rewrite (down_select_urls_unfold _ [["a"]]) by done.
    change (all_urls_of [["a"]]) with [Some "a"].
    rewrite select_loop_add; [simpl; f_equal; set_solver|done|].
    rewrite size_union, size_singleton, size_empty by set_solver. lia.
  - rewrite size_singleton. lia.
Qed.

(** C9: with [num_urls = 0] the stop test never holds, and the function
    returns every non-empty URL of every per-template list. *)
Theorem down_select_urls_zero_cap (search_results : list (list (list string)))
    (lists : list (list string)) :
  first_results search_results = Ok lists →
  _down_select_urls search_results 0
  = Ok (list_to_set (filter (λ u, u ≠ "") (mjoin lists))).
Proof.
  intros Hl. rewrite (down_select_urls_unfold _ _ _ Hl). f_equal.
  rewrite select_loop_no_cap by lia.
  apply set_eq. intros u.
  rewrite elem_of_union, !elem_of_list_to_set, elem_of_kept_urls,
    list_elem_of_filter, list_elem_of_join.
  unfold all_urls_of. rewrite elem_of_zip_longest. set_solver.
Qed.

(** ** [asyncio.gather] *)

Section gather_facts.
Context {A : Type}.
Implicit Types (outcomes : list (result A)) (order : list nat).

Lemma collect_Ok outcomes (l : list A) :
  collect outcomes = Ok l ↔ outcomes = Ok <$> l.
Proof.
  revert l. induction outcomes as [|[a|e] rest IH]; intros l; simpl.
  - split; [intros [= <-]; done|by intros ->%eq_sym%fmap_nil_inv].
  - destruct (collect rest) as [l'|e'] eqn:Hrest.
    + split.
      * intros [= <-]. csimpl. f_equal. by apply IH.
      * destruct l as [|a' l'']; [done|]. intros [= -> Hr].
        apply IH in Hr. by simplify_eq.
    + split; [done|]. destruct l as [|a' l'']; [done|]. intros [= -> Hr].
      apply IH in Hr. done.
  - split; [done|]. by destruct l.
Qed.

Lemma collect_Raise outcomes (e : exn) :
  collect outcomes = Raise e → Raise e ∈ outcomes.
Proof.
  induction outcomes as [|[a|e'] rest IH]; simpl; [done| |].
  - destruct (collect rest); [done|]. intros [= ->]. right. by apply IH.
  - intros [= ->]. left.
Qed.

Lemma first_raised_Some order outcomes (e : exn) :
  first_raised order outcomes = Some e → Raise e ∈ outcomes.
Proof.
  induction order as [|i order IH]; simpl; [done|].
  destruct (outcomes !! i) as [[a|e']|] eqn:Hi; [done| |done].
  intros [= ->]. apply list_elem_of_lookup. by exists i.
Qed.

Lemma first_raised_all_Ok order (l : list A) :
  first_raised order (Ok <$> l) = None.
Proof.
  induction order as [|i order IH]; simpl; [done|].
  rewrite list_lookup_fmap. by destruct (l !! i).
Qed.

(** Nothing raised: the results, in the order the tasks were passed. *)
Lemma gather_all_Ok order (l : list A) : gather order (Ok <$> l) = Ok l.
Proof.
  unfold gather. rewrite first_raised_all_Ok. by apply collect_Ok.
Qed.

Lemma gather_Ok order outcomes (l : list A) :
  gather order outcomes = Ok l → outcomes = Ok <$> l.
Proof.
  unfold gather. destruct (first_raised order outcomes); [done|].
  apply collect_Ok.
Qed.

(** What [gather] raises is what one of the tasks raised. *)
Lemma gather_Raise order outcomes (e : exn) :
  gather order outcomes = Raise e → Raise e ∈ outcomes.
Proof.
  unfold gather. destruct (first_raised order outcomes) as [e'|] eqn:Hf.
  - intros [= <-]. by eapply first_raised_Some.
  - apply collect_Raise.
Qed.

(** One task raising is enough for [gather] to raise. *)
Lemma gather_fail_fast order outcomes (e : exn) :
  Raise e ∈ outcomes →
  ∃ e', gather order outcomes = Raise e' ∧ Raise e' ∈ outcomes.
Proof.
  intros He. destruct (gather order outcomes) as [l|e'] eqn:Hg.
  - apply gather_Ok in Hg. subst.
    apply list_elem_of_fmap in He as (? & ? & _). done.
  - exists e'. split; [done|]. by eapply gather_Raise.
Qed.
End gather_facts.

(** ** The coroutine monad *)

Lemma bind_Ok {A B} (m : M A) (f : A → M B) (t t' : list event) (a : A) :
  m t = (Ok a, t') → (m ≫= f) t = f a t'.
Proof. intros Hm. unfold mbind, M_bind. by rewrite Hm. Qed.

Lemma bind_Raise {A B} (m : M A) (f : A → M B) (t t' : list event) (e : exn) :
  m t = (Raise e, t') → (m ≫= f) t = (Raise e, t').
Proof. intros Hm. unfold mbind, M_bind. by rewrite Hm. Qed.

(** ** The jurisdiction filter *)

Lemma StronglySorted_lookup_lt {A} (R : relation A) (l : list A)
    (i j : nat) (a b : A) :
  StronglySorted R l → (i < j)%nat →
  l !! i = Some a → l !! j = Some b → R a b.
Proof.
  intros Hs. revert i j. induction Hs as [|x l Hs IH Hx]; intros i j Hij; [done|].
  destruct j as [|j]; [lia|]. destruct i as [|i]; simpl.
  - intros [= ->] Hb. rewrite Forall_forall in Hx. apply Hx.
    apply list_elem_of_lookup. by exists j.
  - apply IH. lia.
Qed.

Lemma correct_location_key_le (a b : Document) :
  key_le correct_location_key a b
  ↔ isinstance_PDFDocument a = true ∧ isinstance_PDFDocument b = false
    ∨ isinstance_PDFDocument a = isinstance_PDFDocument b
      ∧ len_text a ≤ len_text b.
Proof.
  unfold key_le, py_le. rewrite negb_true_iff, <- not_true_iff_false.
  unfold correct_location_key. rewrite tuple_lt_iff.
  unfold py_lt, int_lt, bool_lt. rewrite !Z.ltb_lt.
  destruct (isinstance_PDFDocument a), (isinstance_PDFDocument b); simpl;
    intuition (try discriminate; lia).
Qed.

(** C2, as the code has it: when every jurisdiction check returns, the
    documents whose check was true come back sorted ascending by the pair
    (document is not a PDF, text length): every PDF document comes before
    every other document, and within each of the two groups the documents
    are in ascending text length, equal keys keeping their input order. *)
Theorem down_select_docs_correct_location_order (env : Collaborators)
    (docs : list Document) (location county state : string)
    (output : list bool) (t : list event) :
  (λ doc, county_check env doc county state) <$> docs = Ok <$> output →
  ∃ out : list Document,
    _down_select_docs_correct_location env docs location county state t
    = (Ok out, t ++ ((λ doc, CountyCheckCall doc county state) <$> docs))
    ∧ out = sorted correct_location_key (keep_checked docs output)
    ∧ out ≡ₚ keep_checked docs output
    ∧ StronglySorted (key_le correct_location_key) out
    ∧ (∀ k, filter (λ d, correct_location_key d = k) out
            = filter (λ d, correct_location_key d = k)
                (keep_checked docs output))
    ∧ ∀ (i j : nat) (a b : Document),
        (i < j)%nat → out !! i = Some a → out !! j = Some b →
        isinstance_PDFDocument a = true ∧ isinstance_PDFDocument b = false
        ∨ isinstance_PDFDocument a = isinstance_PDFDocument b
          ∧ len_text a ≤ len_text b.
Proof.
  intros Hchecks. eexists. split_and!; [|done|..].
  - unfold _down_select_docs_correct_location.
    by rewrite Hchecks, gather_all_Ok.
  - apply sorted_perm.
  - apply sorted_sorted.
  - intros k. apply sorted_stable.
  - intros i j a b Hij Ha Hb. apply correct_location_key_le.
    eapply StronglySorted_lookup_lt; [apply sorted_sorted|done..].
Qed.

(** C2 as stated fails: an HTML document and a longer PDF document that
    both pass the check come back with the PDF document first, which is
    not ascending by (is a PDF, text length). *)
Lemma correct_location_order_pdf_first :
  _down_select_docs_correct_location sample_env [sample_html; sample_pdf]
    "Box Elder County, Utah" "Box Elder" "Utah" []
  = (Ok [sample_pdf; sample_html],
     [CountyCheckCall sample_html "Box Elder" "Utah";
      CountyCheckCall sample_pdf "Box Elder" "Utah"])
  ∧ ¬ StronglySorted (key_le spec_location_key) [sample_pdf; sample_html].
Proof.
  split; [reflexivity|].
  intros Hs. apply StronglySorted_inv in Hs as [_ Hf].
  apply Forall_cons in Hf as [Hle _]. discriminate Hle.
Qed.

Lemma down_select_docs_correct_location_order_witness :
  ∃ out : list Document,
    _down_select_docs_correct_location sample_env [sample_html; sample_pdf]
      "Box Elder County, Utah" "Box Elder" "Utah" []
    = (Ok out,
       [] ++ ((λ doc, CountyCheckCall doc "Box Elder" "Utah")
                <$> [sample_html; sample_pdf]))
    ∧ out = sorted correct_location_key
              (keep_checked [sample_html; sample_pdf] [true; true]).
Proof.
  destruct (down_select_docs_correct_location_order sample_env
              [sample_html; sample_pdf] "Box Elder County, Utah"
              "Box Elder" "Utah" [true; true] [] eq_refl)
    as (out & Hrun & Hout & _).
  exists out. by split.
Defined.

(** ** The ordinance check *)

Lemma check_docs_loop_all (env : Collaborators) (docs outs ord_docs : list Document)
    (t : list event) :
  Forall2 (λ doc out, check_for_ordinance_info env doc = Ok out
                      ∧ is_Some (contains_ord_info (metadata out))) docs outs →
  check_docs_loop env docs ord_docs t
  = (Ok (ord_docs ++ filter has_ord_info outs), t ++ (OrdInfoCall <$> docs)).
Proof.
  intros Hall. revert ord_docs t.
  induction Hall as [|doc out docs outs [Hout [flag Hflag]] _ IH];
    intros ord_docs t; simpl.
  - unfold mret, M_ret. by rewrite filter_nil, !(right_id_L [] (++)).
  - erewrite bind_Ok; [|unfold call; by rewrite Hout].
    erewrite bind_Ok;
      [|unfold lift, get_contains_ord_info; by rewrite Hflag].
    rewrite filter_cons. unfold has_ord_info at 1.
    destruct flag;
      [rewrite IH, decide_True by done|rewrite IH, decide_False by congruence];
      (apply pair_eq; split; by rewrite <- ?(assoc_L (++))).
Qed.

(** C6: when the content check answers for every document, it is called
    once per document of the input, in input order, all the way to the end
    of the list, and exactly the checked documents whose
    [contains_ord_info] flag is true are returned, in that order. *)
Theorem check_docs_for_ords_all (env : Collaborators)
    (docs outs : list Document) (t : list event) :
  Forall2 (λ doc out, check_for_ordinance_info env doc = Ok out
                      ∧ is_Some (contains_ord_info (metadata out))) docs outs →
  _check_docs_for_ords env docs t
  = (Ok (filter has_ord_info outs), t ++ (OrdInfoCall <$> docs)).
Proof. intros Hall. unfold _check_docs_for_ords. by erewrite check_docs_loop_all. Qed.

Lemma check_docs_for_ords_all_witness :
  _check_docs_for_ords sample_env [sample_html; sample_pdf; sample_html] []
  = (Ok (filter has_ord_info
           (sample_ord_check <$> [sample_html; sample_pdf; sample_html])),
     [] ++ (OrdInfoCall <$> [sample_html; sample_pdf; sample_html])).
Proof.
  apply check_docs_for_ords_all.
  repeat constructor; by eexists.
Defined.

(** ** The whole run *)

Section run_facts.
Context (env : Collaborators) (location : Location) (num_urls : Z).

Lemma find_urls_run (loc : string) (num_results : Z) (t : list event) :
  _find_urls env loc num_results t
  = (gather (search_finish_order env)
       ((λ q, _search_single env loc q num_results) <$> QUESTION_TEMPLATES),
     t ++ ((λ q, SearchCall (format q loc) num_results) <$> QUESTION_TEMPLATES)).
Proof. reflexivity. Qed.

Lemma classifier_calls_app (t1 t2 : list event) :
  classifier_calls (t1 ++ t2) = classifier_calls t1 ++ classifier_calls t2.
Proof. apply filter_app. Qed.

Lemma classifier_calls_skip (ev : event) :
  is_classifier_call ev = false → classifier_calls [ev] = [].
Proof.
  intros Hev. unfold classifier_calls.
  by rewrite filter_cons, decide_False, filter_nil by congruence.
Qed.

Lemma classifier_calls_search (loc : string) (num_results : Z)
    (qs : list (list field)) :
  classifier_calls ((λ q, SearchCall (format q loc) num_results) <$> qs) = [].
Proof. induction qs as [|q qs IH]; [done|]. exact IH. Qed.

(** The run through its five stages, when each of them returns. *)
Lemma download_stages (t t1 t2 t3 t4 : list event)
    (search_results : list (list (list string))) (urls : gset string)
    (docs loc_docs ord_docs : list Document) :
  _find_urls env (full_name location) 10 t = (Ok search_results, t1) →
  _down_select_urls search_results num_urls = Ok urls →
  _load_docs env urls t1 = (Ok docs, t2) →
  _down_select_docs_correct_location env docs
    (full_name location) (name location) (state location) t2
  = (Ok loc_docs, t3) →
  _check_docs_for_ords env loc_docs t3 = (Ok ord_docs, t4) →
  download_county_ordinance env location num_urls t
  = (_parse_all_ord_docs ord_docs,
     t4 ++ [LogInfo (Z.of_nat (length ord_docs)) (full_name location)]).
Proof.
  intros Hfind Hsel Hload Hloc Hord. unfold download_county_ordinance.
  erewrite bind_Ok by exact Hfind.
  erewrite bind_Ok by (unfold lift; by rewrite Hsel).
  erewrite bind_Ok by exact Hload.
  erewrite bind_Ok by exact Hloc.
  erewrite bind_Ok by exact Hord.
  erewrite bind_Ok by reflexivity.
  reflexivity.
Qed.

Lemma down_select_docs_correct_location_nil (loc county st : string)
    (t : list event) :
  _down_select_docs_correct_location env [] loc county st t = (Ok [], t).
Proof.
  unfold _down_select_docs_correct_location.
  change ((λ doc, county_check env doc county st) <$> [])
    with (Ok (A:=bool) <$> []).
  rewrite gather_all_Ok, fmap_nil, (right_id_L [] (++)). done.
Qed.

Lemma check_docs_for_ords_nil (t : list event) :
  _check_docs_for_ords env [] t = (Ok [], t).
Proof. reflexivity. Qed.

Lemma load_docs_run (urls : gset string) (t : list event) :
  _load_docs env urls t = (fetch_all env urls, t ++ [FetchAllCall urls]).
Proof. reflexivity. Qed.

Lemma down_select_docs_correct_location_trace (docs : list Document)
    (loc county st : string) (t : list event) :
  (_down_select_docs_correct_location env docs loc county st t).2
  = t ++ ((λ doc, CountyCheckCall doc county st) <$> docs).
Proof. reflexivity. Qed.
End run_facts.

(** C5: when a search request of the fan-out raises, the run raises what
    one of the failed requests raised, that very exception when it is the
    only one, after the search calls and nothing else; when a jurisdiction
    check raises, the run raises what one of the failed checks raised, and
    no document is handed to the ordinance check.  In both cases nothing is
    returned. *)
Theorem download_fail_fast (env : Collaborators) (location : Location)
    (num_urls : Z) (t : list event) :
  (∀ (q : list field) (e : exn),
     q ∈ QUESTION_TEMPLATES →
     _search_single env (full_name location) q 10 = Raise e →
     ∃ (q' : list field) (e' : exn),
       q' ∈ QUESTION_TEMPLATES
       ∧ _search_single env (full_name location) q' 10 = Raise e'
       ∧ download_county_ordinance env location num_urls t
         = (Raise e',
            t ++ ((λ q, SearchCall (format q (full_name location)) 10)
                    <$> QUESTION_TEMPLATES))
       ∧ ((∀ q'' e'', q'' ∈ QUESTION_TEMPLATES →
             _search_single env (full_name location) q'' 10 = Raise e'' →
             e'' = e) →
          e' = e))
  ∧ (∀ (search_results : list (list (list string))) (t1 : list event)
       (urls : gset string) (docs : list Document) (doc : Document) (e : exn),
       _find_urls env (full_name location) 10 t = (Ok search_results, t1) →
       _down_select_urls search_results num_urls = Ok urls →
       fetch_all env urls = Ok docs →
       doc ∈ docs →
       county_check env doc (name location) (state location) = Raise e →
       ∃ (doc' : Document) (e' : exn),
         doc' ∈ docs
         ∧ county_check env doc' (name location) (state location) = Raise e'
         ∧ download_county_ordinance env location num_urls t
           = (Raise e',
              t1 ++ [FetchAllCall urls]
                 ++ ((λ doc, CountyCheckCall doc (name location) (state location))
                       <$> docs))
         ∧ ((∀ doc'' e'', doc'' ∈ docs →
               county_check env doc'' (name location) (state location)
               = Raise e'' →
               e'' = e) →
            e' = e)).
Proof.
  split.
  - intros q e Hq He.
    destruct (gather_fail_fast (search_finish_order env)
                ((λ q, _search_single env (full_name location) q 10)
                   <$> QUESTION_TEMPLATES) e) as (e' & Hg & Hin).
    { apply list_elem_of_fmap. by exists q. }
    apply list_elem_of_fmap in Hin as (q' & He' & Hq').
    exists q', e'. split_and!; [done|done| |by eauto].
    unfold download_county_ordinance.
    erewrite bind_Raise; [done|]. by rewrite find_urls_run, Hg.
  - intros search_results t1 urls docs doc e Hfind Hsel Hload Hdoc He.
    destruct (gather_fail_fast (check_finish_order env)
                ((λ doc, county_check env doc (name location) (state location))
                   <$> docs) e) as (e' & Hg & Hin).
    { apply list_elem_of_fmap. by exists doc. }
    apply list_elem_of_fmap in Hin as (doc' & He' & Hdoc').
    exists doc', e'. split_and!; [done|done| |by eauto].
    unfold download_county_ordinance.
    erewrite bind_Ok by exact Hfind.
    erewrite bind_Ok by (unfold lift; by rewrite Hsel).
    erewrite bind_Ok by (by rewrite load_docs_run, Hload).
    erewrite bind_Raise; [done|].
    unfold _down_select_docs_correct_location. rewrite Hg.
    by rewrite <- (assoc_L (++)).
Qed.

(** C7: when a stage comes back empty the run ends in [None] and no call
    to either check follows: with no URL selected (the loader, asked for
    nothing, fetching nothing), with no document fetched, with no document
    passing the jurisdiction check, and with no document passing the
    ordinance check.  The only events after the empty stage are the loader
    call, when the stage is the URL selection, and the log line. *)
Theorem download_none_found (env : Collaborators) (location : Location)
    (num_urls : Z) (t : list event) :
  (∀ (search_results : list (list (list string))) (t1 : list event),
     _find_urls env (full_name location) 10 t = (Ok search_results, t1) →
     _down_select_urls search_results num_urls = Ok ∅ →
     fetch_all env ∅ = Ok [] →
     download_county_ordinance env location num_urls t
     = (Ok None, t1 ++ [FetchAllCall ∅; LogInfo 0 (full_name location)])
     ∧ classifier_calls
         (download_county_ordinance env location num_urls t).2
       = classifier_calls t)
  ∧ (∀ (search_results : list (list (list string))) (t1 t2 : list event)
       (urls : gset string),
       _find_urls env (full_name location) 10 t = (Ok search_results, t1) →
       _down_select_urls search_results num_urls = Ok urls →
       _load_docs env urls t1 = (Ok [], t2) →
       download_county_ordinance env location num_urls t
       = (Ok None, t2 ++ [LogInfo 0 (full_name location)])
       ∧ classifier_calls
           (download_county_ordinance env location num_urls t).2
         = classifier_calls t)
  ∧ (∀ (search_results : list (list (list string))) (t1 t2 t3 : list event)
       (urls : gset string) (docs : list Document),
       _find_urls env (full_name location) 10 t = (Ok search_results, t1) →
       _down_select_urls search_results num_urls = Ok urls →
       _load_docs env urls t1 = (Ok docs, t2) →
       _down_select_docs_correct_location env docs
         (full_name location) (name location) (state location) t2
       = (Ok [], t3) →
       download_county_ordinance env location num_urls t
       = (Ok None, t3 ++ [LogInfo 0 (full_name location)])
       ∧ classifier_calls
           (download_county_ordinance env location num_urls t).2
         = classifier_calls t3)
  ∧ (∀ (search_results : list (list (list string))) (t1 t2 t3 t4 : list event)
       (urls : gset string) (docs loc_docs : list Document),
       _find_urls env (full_name location) 10 t = (Ok search_results, t1) →
       _down_select_urls search_results num_urls = Ok urls →
       _load_docs env urls t1 = (Ok docs, t2) →
       _down_select_docs_correct_location env docs
         (full_name location) (name location) (state location) t2
       = (Ok loc_docs, t3) →
       _check_docs_for_ords env loc_docs t3 = (Ok [], t4) →
       download_county_ordinance env location num_urls t
       = (Ok None, t4 ++ [LogInfo 0 (full_name location)])
       ∧ classifier_calls
           (download_county_ordinance env location num_urls t).2
         = classifier_calls t4).
Proof.
  assert (∀ (search_results : list (list (list string))) (t1 t2 : list event)
            (urls : gset string),
            _find_urls env (full_name location) 10 t = (Ok search_results, t1) →
            _down_select_urls search_results num_urls = Ok urls →
            _load_docs env urls t1 = (Ok [], t2) →
            download_county_ordinance env location num_urls t
            = (Ok None, t2 ++ [LogInfo 0 (full_name location)])
            ∧ classifier_calls
                (download_county_ordinance env location num_urls t).2
              = classifier_calls t) as Hfetch.
  { intros search_results t1 t2 urls Hfind Hsel Hload.
    assert (download_county_ordinance env location num_urls t
            = (Ok None, t2 ++ [LogInfo 0 (full_name location)])) as Hrun.
    { by rewrite (download_stages env location num_urls t t1 t2 t2 t2
                    search_results urls [] [] [] Hfind Hsel Hload
                    (down_select_docs_correct_location_nil env _ _ _ _)
                    (check_docs_for_ords_nil env _)). }
    split; [done|]. rewrite Hrun. simpl.
    rewrite load_docs_run in Hload. rewrite find_urls_run in Hfind.
    simplify_eq.
    by rewrite !classifier_calls_app, classifier_calls_search,
      !classifier_calls_skip, !(right_id_L [] (++)). }
  split_and!.
  - intros search_results t1 Hfind Hsel Hload.
    destruct (Hfetch search_results t1 (t1 ++ [FetchAllCall ∅]) ∅ Hfind Hsel)
      as [Hrun Hcalls]; [by rewrite load_docs_run, Hload|].
    split; [|done]. by rewrite Hrun, <- (assoc_L (++)).
  - exact Hfetch.
  - intros search_results t1 t2 t3 urls docs Hfind Hsel Hload Hloc.
    assert (download_county_ordinance env location num_urls t
            = (Ok None, t3 ++ [LogInfo 0 (full_name location)])) as Hrun.
    { by rewrite (download_stages env location num_urls t t1 t2 t3 t3
                    search_results urls docs [] [] Hfind Hsel Hload Hloc
                    (check_docs_for_ords_nil env _)). }
    split; [done|]. rewrite Hrun. simpl.
    by rewrite classifier_calls_app, classifier_calls_skip,
      (right_id_L [] (++)).
  - intros search_results t1 t2 t3 t4 urls docs loc_docs
      Hfind Hsel Hload Hloc Hord.
    assert (download_county_ordinance env location num_urls t
            = (Ok None, t4 ++ [LogInfo 0 (full_name location)])) as Hrun.
    { by rewrite (download_stages env location num_urls t t1 t2 t3 t4
                    search_results urls docs loc_docs [] Hfind Hsel Hload
                    Hloc Hord). }
    split; [done|]. rewrite Hrun. simpl.
    by rewrite classifier_calls_app, classifier_calls_skip,
      (right_id_L [] (++)).
Qed.

(** ** Instances on sample data *)

Lemma parse_all_ord_docs_max_witness :
  [sample_html; sample_pdf; tie_first] ≠ []
  ∧ ∃ best,
      _parse_all_ord_docs [sample_html; sample_pdf; tie_first] = Ok (Some best)
      ∧ best ∈ [sample_html; sample_pdf; tie_first]
      ∧ ∀ d, d ∈ [sample_html; sample_pdf; tie_first] → not_better d best.
Proof.
  assert ([sample_html; sample_pdf; tie_first] ≠ []) as Hne by discriminate.
  split; [exact Hne|].
  destruct (parse_all_ord_docs_max _ Hne) as (best & Hret & Hin & _ & _ & _ & Hmax & _).
  exists best. split_and!; assumption.
Defined.

Lemma parse_all_ord_docs_latest_of_ties_witness :
  [tie_first; tie_second; sample_pdf] ≠ []
  ∧ ∃ best before after,
      _parse_all_ord_docs [tie_first; tie_second; sample_pdf] = Ok (Some best)
      ∧ [tie_first; tie_second; sample_pdf] = before ++ best :: after
      ∧ Forall (λ d, worse d best) after.
Proof.
  assert ([tie_first; tie_second; sample_pdf] ≠ []) as Hne by discriminate.
  split; [exact Hne|].
  destruct (parse_all_ord_docs_latest_of_ties _ Hne)
    as (best & before & after & Hret & _ & Hsplit & _ & Hafter & _).
  exists best, before, after. split_and!; assumption.
Defined.

(** The later of two documents with the same key is the one returned. *)
Example parse_all_ord_docs_tie :
  _ord_doc_sorting_key tie_first = _ord_doc_sorting_key tie_second
  ∧ _parse_all_ord_docs [tie_first; tie_second; sample_pdf] = Ok (Some tie_second)
  ∧ _parse_all_ord_docs [tie_second; tie_first; sample_pdf] = Ok (Some tie_first).
Proof. split_and!; reflexivity. Qed.

(** At equal year a PDF document wins whatever the lengths. *)
Example parse_all_ord_docs_pdf_preferred :
  _parse_all_ord_docs [dated_doc PDFDocument 500 2020; dated_doc HTMLDocument 10 2020]
  = Ok (Some (dated_doc PDFDocument 500 2020)).
Proof. vm_compute. reflexivity. Qed.

(** At equal year and class the shorter text wins. *)
Example parse_all_ord_docs_shorter_preferred :
  _parse_all_ord_docs [dated_doc PDFDocument 1000 2019; dated_doc PDFDocument 50 2019]
  = Ok (Some (dated_doc PDFDocument 50 2019)).
Proof. vm_compute. reflexivity. Qed.

(** The year dominates class and length. *)
Example parse_all_ord_docs_year_first :
  _parse_all_ord_docs [dated_doc HTMLDocument 1 2021; dated_doc PDFDocument (Z.to_nat 9999) 2019]
  = Ok (Some (dated_doc HTMLDocument 1 2021)).
Proof. vm_compute. reflexivity. Qed.

Lemma down_select_urls_round_robin_witness :
  (∃ k : nat,
     _down_select_urls [[["a"; "b"]; ["z"]]; [["c"]]; [[""; "a"]]] 2
     = Ok (list_to_set
             (take k (kept_urls (all_urls_of [["a"; "b"]; ["c"]; [""; "a"]])))))
  ∧ all_urls_of [["a"; "b"]; ["c"; "d"]; ["e"; "f"]]
    = [Some "a"; Some "c"; Some "e"; Some "b"; Some "d"; Some "f"]
  ∧ _down_select_urls [[["a"; "b"]]; [["c"; "d"]]; [["e"; "f"]]] 4
    = Ok {["a"; "c"; "e"; "b"]}.
Proof.
  destruct down_select_urls_round_robin as [Hgen Hex]. split.
  - destruct (Hgen [[["a"; "b"]; ["z"]]; [["c"]]; [[""; "a"]]]
                [["a"; "b"]; ["c"]; [""; "a"]] 2 eq_refl)
      as (_ & _ & k & Hk & _).
    by exists k.
  - apply Hex.
    + apply (bool_decide_unpack _). vm_compute. exact I.
    + repeat constructor; discriminate.
Defined.

Lemma down_select_urls_capped_witness :
  ∃ urls : gset string,
    _down_select_urls [[["a"; "b"]]; [["a"; ""; "c"]]] 0 = Ok urls
    ∧ (∀ u, u ∈ urls → u ≠ "" ∧ ∃ l, l ∈ [["a"; "b"]; ["a"; ""; "c"]] ∧ u ∈ l)
    ∧ (size urls ≤ length (remove_dups (mjoin [["a"; "b"]; ["a"; ""; "c"]])))%nat.
Proof.
  destruct (down_select_urls_capped [[["a"; "b"]]; [["a"; ""; "c"]]]
              [["a"; "b"]; ["a"; ""; "c"]] 0 eq_refl)
    as (urls & Hrun & Hin & Hsize & _).
  by exists urls.
Defined.

Lemma down_select_urls_zero_cap_witness :
  _down_select_urls [[["a"; ""]]; [["b"; "a"]]] 0
  = Ok (list_to_set (filter (λ u, u ≠ "") (mjoin [["a"; ""]; ["b"; "a"]]))).
Proof.
  apply (down_select_urls_zero_cap [[["a"; ""]]; [["b"; "a"]]]
           [["a"; ""]; ["b"; "a"]]).
  reflexivity.
Defined.

(** With a cap of zero three URLs are returned where the cap says none. *)
Example down_select_urls_zero_cap_size :
  ∃ urls : gset string,
    _down_select_urls [[["a"; "b"]]; [["c"; "a"]]] 0 = Ok urls ∧ size urls = 3%nat.
Proof. eexists. split; [reflexivity|]. vm_compute. reflexivity. Qed.

Lemma sample_find_urls (t : list event) :
  _find_urls sample_env (full_name sample_location) 10 t
  = (Ok [sample_links; sample_links; sample_links; sample_links],
     t ++ ((λ q, SearchCall (format q (full_name sample_location)) 10)
             <$> QUESTION_TEMPLATES)).
Proof. reflexivity. Qed.

Lemma sample_down_select_urls :
  _down_select_urls [sample_links; sample_links; sample_links; sample_links] 5
  = Ok sample_urls.
Proof. vm_compute. reflexivity. Qed.

Lemma download_fail_fast_witness :
  (∃ e t', download_county_ordinance sample_env_search_down sample_location 5 []
           = (Raise e, t')
           ∧ classifier_calls t' = [])
  ∧ (∃ e t', download_county_ordinance sample_env_check_down sample_location 5 []
             = (Raise e, t')
             ∧ Forall (λ ev, ∀ doc, ev ≠ OrdInfoCall doc) t').
Proof.
  split.
  - destruct (proj1 (download_fail_fast sample_env_search_down sample_location 5 [])
                [Lit ("1. " +:+ dq); LocationField;
                 Lit (" wind WECS zoning ordinance" +:+ dq)]
                (External "search timed out"))
      as (q' & e' & _ & _ & Hrun & _).
    + unfold QUESTION_TEMPLATES. set_solver.
    + reflexivity.
    + exists e'. eexists. split; [exact Hrun|]. reflexivity.
  - destruct (proj2 (download_fail_fast sample_env_check_down sample_location 5 [])
                [sample_links; sample_links; sample_links; sample_links]
                ([] ++ ((λ q, SearchCall (format q (full_name sample_location)) 10)
                          <$> QUESTION_TEMPLATES))
                sample_urls [sample_html; sample_pdf] sample_html
                (External "LLM call failed"))
      as (doc' & e' & _ & _ & Hrun & _).
    + reflexivity.
    + apply sample_down_select_urls.
    + reflexivity.
    + set_solver.
    + reflexivity.
    + exists e'. eexists. split; [exact Hrun|].
      repeat constructor; discriminate.
Defined.

Lemma download_none_found_witness :
  (download_county_ordinance sample_env_no_links sample_location 5 []).1 = Ok None
  ∧ (download_county_ordinance sample_env_no_docs sample_location 5 []).1 = Ok None
  ∧ (download_county_ordinance sample_env_wrong_county sample_location 5 []).1
    = Ok None
  ∧ (download_county_ordinance sample_env_no_ord sample_location 5 []).1 = Ok None.
Proof.
  split_and!.
  - destruct (download_none_found sample_env_no_links sample_location 5 [])
      as (Hcase & _).
    edestruct Hcase as [-> _]; [reflexivity..|]. reflexivity.
  - destruct (download_none_found sample_env_no_docs sample_location 5 [])
      as (_ & Hcase & _).
    edestruct Hcase as [-> _];
      [apply sample_find_urls|apply sample_down_select_urls|reflexivity|].
    reflexivity.
  - destruct (download_none_found sample_env_wrong_county sample_location 5 [])
      as (_ & _ & Hcase & _).
    edestruct Hcase as [-> _];
      [apply sample_find_urls|apply sample_down_select_urls|reflexivity..|].
    reflexivity.
  - destruct (download_none_found sample_env_no_ord sample_location 5 [])
      as (_ & _ & _ & Hcase).
    edestruct Hcase as [-> _];
      [apply sample_find_urls|apply sample_down_select_urls|reflexivity..|].
    reflexivity.
Defined.

(** A run in which every collaborator answers: both documents are about
    the county, the PDF document is checked first, only it has ordinance
    text, and it is returned. *)
Example download_sample_run :
  download_county_ordinance sample_env sample_location 5 []
  = (Ok (Some (sample_ord_check sample_pdf)),
     ((λ q, SearchCall (format q (full_name sample_location)) 10)
        <$> QUESTION_TEMPLATES)
     ++ [FetchAllCall sample_urls;
         CountyCheckCall sample_html "Box Elder" "Utah";
         CountyCheckCall sample_pdf "Box Elder" "Utah";
         OrdInfoCall sample_pdf; OrdInfoCall sample_html;
         LogInfo 1 (full_name sample_location)]).
Proof.
  erewrite download_stages;
    [|apply sample_find_urls|apply sample_down_select_urls|reflexivity..].
  reflexivity.
Qed.

(** * Further properties of the module *)

(** ** URL down-selection: errors and edge cases *)

Lemma first_results_heads (search_results : list (list (list string)))
    (lists : list (list string)) :
  first_results search_results = Ok lists ↔ head <$> search_results = Some <$> lists.
Proof.
  revert lists. induction search_results as [|[|urls results] rest IH];
    intros lists; simpl.
  - split; [by intros [= <-]|]. by intros ->%eq_sym%fmap_nil_inv.
  - split; [done|]. by destruct lists.
  - destruct (first_results rest) as [lists'|e] eqn:Hrest.
    + split.
      * intros [= <-]. csimpl. f_equal. by apply IH.
      * destruct lists as [|l lists]; [done|]. csimpl. intros [= -> Hl].
        apply IH in Hl. by simplify_eq.
    + split; [done|]. destruct lists as [|l lists]; [done|]. csimpl.
      intros [= -> Hl]. by apply IH in Hl.
Qed.

Lemma first_results_Raise (search_results : list (list (list string))) (e : exn) :
  first_results search_results = Raise e → e = IndexError ∧ [] ∈ search_results.
Proof.
  induction search_results as [|[|urls results] rest IH]; simpl; [done| |].
  - intros [= <-]. split; [done|left].
  - destruct (first_results rest); [done|]. intros [= ->].
    destruct (IH eq_refl) as [-> Hin]. split; [done|by right].
Qed.

Lemma first_results_empty_result (search_results : list (list (list string))) :
  [] ∈ search_results → first_results search_results = Raise IndexError.
Proof.
  induction search_results as [|[|urls results] rest IH]; simpl.
  - by intros ?%elem_of_nil.
  - done.
  - intros [?|Hin]%elem_of_cons; [done|]. by rewrite (IH Hin).
Qed.

(** X1: A search that came back with no link list at all makes the selection
    raise [IndexError], whatever the cap; it raises nothing else. *)
Theorem down_select_urls_index_error (search_results : list (list (list string)))
    (num_urls : Z) :
  (_down_select_urls search_results num_urls = Raise IndexError
   ↔ [] ∈ search_results)
  ∧ (∀ e, _down_select_urls search_results num_urls = Raise e → e = IndexError)
  ∧ ([] ∉ search_results →
     ∃ urls, _down_select_urls search_results num_urls = Ok urls).
Proof.
  unfold _down_select_urls.
  destruct (first_results search_results) as [lists|e] eqn:Hf.
  - split_and!; [split; [done|]|done|by eauto].
    intros Hin. by rewrite (first_results_empty_result _ Hin) in Hf.
  - apply first_results_Raise in Hf as [-> Hin].
    split_and!; [done|by intros e [= <-]|done].
Qed.

Lemma down_select_urls_index_error_witness :
  _down_select_urls [[["a"]]; []; [["b"]]] 5 = Raise IndexError
  ∧ ∃ urls, _down_select_urls [[["a"]]; [[]]; [["b"]]] 5 = Ok urls.
Proof.
  destruct (down_select_urls_index_error [[["a"]]; []; [["b"]]] 5)
    as ([_ Hraise] & _ & _).
  destruct (down_select_urls_index_error [[["a"]]; [[]]; [["b"]]] 5)
    as (_ & _ & Hok).
  split.
  - apply Hraise. set_solver.
  - apply Hok. set_solver.
Defined.

(** X2: only the first link list of each search result is looked at. *)
Theorem down_select_urls_first_lists
    (search_results search_results' : list (list (list string))) (num_urls : Z) :
  head <$> search_results = head <$> search_results' →
  _down_select_urls search_results num_urls
  = _down_select_urls search_results' num_urls.
Proof.
  intros Hheads. unfold _down_select_urls.
  destruct (first_results search_results) as [lists|e] eqn:Hf.
  - apply first_results_heads in Hf. rewrite Hheads in Hf.
    apply first_results_heads in Hf. by rewrite Hf.
  - apply first_results_Raise in Hf as [-> Hin].
    assert ([] ∈ search_results') as Hin'.
    { assert (None ∈ head <$> search_results') as Hn.
      { rewrite <- Hheads. apply list_elem_of_fmap. by exists []. }
      apply list_elem_of_fmap in Hn as ([|??] & Hh & ?); done. }
    by rewrite (first_results_empty_result _ Hin').
Qed.

Lemma down_select_urls_first_lists_witness :
  _down_select_urls [[["a"; "b"]; ["x"]]; [["c"]]] 2
  = _down_select_urls [[["a"; "b"]]; [["c"]; ["y"; "z"]]] 2.
Proof. apply down_select_urls_first_lists. reflexivity. Defined.

Lemma kept_urls_set (lists : list (list string)) :
  list_to_set (C:=gset string) (kept_urls (all_urls_of lists))
  = list_to_set (filter (λ u, u ≠ "") (mjoin lists)).
Proof.
  apply set_eq. intros u.
  rewrite !elem_of_list_to_set, elem_of_kept_urls, list_elem_of_filter,
    list_elem_of_join.
  unfold all_urls_of. rewrite elem_of_zip_longest. set_solver.
Qed.

Lemma select_loop_full_or_cap (num_urls : Z) (all_urls : list (option string))
    (urls : gset string) :
  select_loop num_urls all_urls urls = list_to_set (kept_urls all_urls) ∪ urls
  ∨ Z.of_nat (size (select_loop num_urls all_urls urls)) = num_urls.
Proof.
  destruct (select_loop_prefix num_urls all_urls urls)
    as (k & _ & Heq & [->|[_ Hcap]] & _); [left|by right].
  by rewrite Heq, firstn_all.
Qed.

Lemma select_loop_subseteq (num_urls : Z) (all_urls : list (option string))
    (urls : gset string) :
  urls ⊆ select_loop num_urls all_urls urls
  ∧ select_loop num_urls all_urls urls ⊆ list_to_set (kept_urls all_urls) ∪ urls.
Proof.
  destruct (select_loop_prefix num_urls all_urls urls) as (k & _ & -> & _).
  split; [set_solver|].
  intros u. rewrite !elem_of_union, !elem_of_list_to_set.
  intros [Hu%elem_of_take|?]; [left|by right].
  destruct Hu as (i & Hi & _). apply list_elem_of_lookup. by exists i.
Qed.

(** X3: the set comes back empty exactly when no per-template list holds a
    non-empty URL, whatever the cap. *)
Theorem down_select_urls_empty_iff (search_results : list (list (list string)))
    (lists : list (list string)) (num_urls : Z) :
  first_results search_results = Ok lists →
  (_down_select_urls search_results num_urls = Ok ∅
   ↔ ∀ l u, l ∈ lists → u ∈ l → u = "").
Proof.
  intros Hl. rewrite (down_select_urls_unfold _ _ _ Hl).
  assert (kept_urls (all_urls_of lists) = []
          ↔ ∀ l u, l ∈ lists → u ∈ l → u = "") as <-.
  { split.
    - intros Hk l u Hin Hu. destruct (decide (u = "")) as [|Hne]; [done|].
      assert (u ∈ kept_urls (all_urls_of lists)) as Hc; [|by rewrite Hk in Hc;
        apply elem_of_nil in Hc].
      apply elem_of_kept_urls. split; [|done].
      apply elem_of_zip_longest. eauto.
    - intros Hall. destruct (kept_urls (all_urls_of lists)) as [|u us] eqn:Hk;
        [done|].
      assert (u ∈ kept_urls (all_urls_of lists)) as [Hu Hne]%elem_of_kept_urls
        by (rewrite Hk; left).
      apply elem_of_zip_longest in Hu as (l & Hin & Hu). destruct Hne. eauto. }
  destruct (select_loop_prefix num_urls (all_urls_of lists) ∅)
    as (k & _ & Heq & Hstop & _).
  split.
  - intros [= Hempty]. rewrite Hempty in Heq, Hstop.
    destruct (kept_urls (all_urls_of lists)) as [|u us]; [done|].
    destruct k as [|k]; [destruct Hstop as [?|[? _]]; [done|lia]|].
    simpl in Heq. set_solver.
  - intros Hk. rewrite Heq, Hk, take_nil. f_equal; set_solver.
Qed.

Lemma down_select_urls_empty_iff_witness :
  _down_select_urls [[[""; ""]]; [[]]; [[""]; ["a"]]] 3 = Ok ∅.
Proof.
  apply (down_select_urls_empty_iff _ [[""; ""]; []; [""]] 3); [reflexivity|].
  intros l u Hl Hu.
  repeat (apply elem_of_cons in Hl as [->|Hl]);
    [..|by apply elem_of_nil in Hl];
    repeat (apply elem_of_cons in Hu as [->|Hu]);
    try done; by apply elem_of_nil in Hu.
Defined.

(** X4: with a cap of at least one the number of URLs returned is the smaller
    of the cap and the number of distinct non-empty URLs on offer; when the
    lists run out before the cap, all of those are returned. *)
Theorem down_select_urls_size (search_results : list (list (list string)))
    (lists : list (list string)) (num_urls : Z) :
  first_results search_results = Ok lists →
  1 ≤ num_urls →
  ∃ urls : gset string,
    _down_select_urls search_results num_urls = Ok urls
    ∧ urls ⊆ list_to_set (filter (λ u, u ≠ "") (mjoin lists))
    ∧ Z.of_nat (size urls)
      = Z.min num_urls
          (Z.of_nat (size (list_to_set (C:=gset string)
                             (filter (λ u, u ≠ "") (mjoin lists)))))
    ∧ (Z.of_nat (size (list_to_set (C:=gset string)
                         (filter (λ u, u ≠ "") (mjoin lists)))) < num_urls →
       urls = list_to_set (filter (λ u, u ≠ "") (mjoin lists))).
Proof.
  intros Hl Hn. rewrite (down_select_urls_unfold _ _ _ Hl).
  eexists. split; [done|]. rewrite <- kept_urls_set.
  destruct (select_loop_subseteq num_urls (all_urls_of lists) ∅) as [_ Hsub].
  rewrite (right_id_L ∅ (∪)) in Hsub.
  pose proof (subseteq_size _ _ Hsub) as Hle.
  pose proof (select_loop_size num_urls (all_urls_of lists) ∅) as Hcap.
  rewrite size_empty in Hcap. specialize (Hcap ltac:(lia)).
  destruct (select_loop_full_or_cap num_urls (all_urls_of lists) ∅)
    as [Hfull|Hhit].
  - rewrite (right_id_L ∅ (∪)) in Hfull. rewrite Hfull in *.
    split_and!; [done|lia|done].
  - split_and!; [done|lia|]. intros Hlt. lia.
Qed.

Lemma down_select_urls_size_witness :
  ∃ urls : gset string,
    _down_select_urls [[["a"; "b"]]; [["a"; ""; "c"]]] 5 = Ok urls
    ∧ Z.of_nat (size urls)
      = Z.min 5 (Z.of_nat (size (list_to_set (C:=gset string)
                   (filter (λ u, u ≠ "") (mjoin [["a"; "b"]; ["a"; ""; "c"]]))))).
Proof.
  destruct (down_select_urls_size [[["a"; "b"]]; [["a"; ""; "c"]]]
              [["a"; "b"]; ["a"; ""; "c"]] 5 eq_refl ltac:(lia))
    as (urls & Hrun & _ & Hsize & _).
  by exists urls.
Defined.

Lemma select_loop_mono (n m : Z) (all_urls : list (option string))
    (urls : gset string) :
  n ≤ m →
  Z.of_nat (size urls) < n →
  select_loop n all_urls urls ⊆ select_loop m all_urls urls.
Proof.
  intros Hnm. revert urls.
  induction all_urls as [|[u|] rest IH]; intros urls Hlt; simpl; [done| |by apply IH].
  destruct (decide (u = "")) as [->|Hu]; [by apply IH|].
  assert (Z.of_nat (size ({[u]} ∪ urls)) ≤ Z.of_nat (size urls) + 1) as Hsz.
  { rewrite size_union_alt, size_singleton.
    assert (size (urls ∖ {[u]}) ≤ size urls)%nat
      by (apply subseteq_size; set_solver).
    lia. }
  destruct (decide (Z.of_nat (size ({[u]} ∪ urls)) = n)) as [Hn|Hn].
  - destruct (decide (Z.of_nat (size ({[u]} ∪ urls)) = m)) as [Hm|Hm]; [done|].
    apply select_loop_subseteq.
  - rewrite decide_False by lia. apply IH. lia.
Qed.

(** X5: raising the cap never drops a URL: what a cap of at least one selects
    is among what any larger cap selects. *)
Theorem down_select_urls_cap_monotone
    (search_results : list (list (list string))) (lists : list (list string))
    (n m : Z) :
  first_results search_results = Ok lists →
  1 ≤ n → n ≤ m →
  ∃ urls_n urls_m : gset string,
    _down_select_urls search_results n = Ok urls_n
    ∧ _down_select_urls search_results m = Ok urls_m
    ∧ urls_n ⊆ urls_m.
Proof.
  intros Hl Hn Hnm. rewrite !(down_select_urls_unfold _ _ _ Hl).
  eexists _, _. split_and!; [done..|].
  apply select_loop_mono; [done|]. rewrite size_empty. lia.
Qed.

Lemma down_select_urls_cap_monotone_witness :
  ∃ urls_n urls_m : gset string,
    _down_select_urls [[["a"; "b"]]; [["c"; "a"]]] 2 = Ok urls_n
    ∧ _down_select_urls [[["a"; "b"]]; [["c"; "a"]]] 3 = Ok urls_m
    ∧ urls_n ⊆ urls_m.
Proof.
  apply (down_select_urls_cap_monotone _ [["a"; "b"]; ["c"; "a"]] 2 3);
    [reflexivity|lia|lia].
Defined.

(** The loop in terms of the entries it has met when it stops. *)
Lemma select_loop_met (num_urls : Z) (all_urls : list (option string))
    (urls : gset string) :
  ∃ k : nat,
    select_loop num_urls all_urls urls
    = list_to_set (kept_urls (take k all_urls)) ∪ urls.
Proof.
  revert urls. induction all_urls as [|[u|] rest IH]; intros urls; simpl.
  - exists 0%nat. set_solver.
  - destruct (decide (u = "")) as [->|Hu].
    + destruct (IH urls) as [k Hk]. exists (S k). by rewrite Hk.
    + destruct (decide (Z.of_nat (size ({[u]} ∪ urls)) = num_urls)).
      * exists 1%nat. simpl. rewrite decide_False by done. simpl. set_solver.
      * destruct (IH ({[u]} ∪ urls)) as [k Hk]. exists (S k). rewrite Hk.
        simpl. rewrite decide_False by done. simpl. set_solver.
  - destruct (IH urls) as [k Hk]. exists (S k). by rewrite Hk.
Qed.

(** X6: better ranks first: when a URL is selected, so is every non-empty URL
    that some template ranks strictly better than any template ranks the
    selected one. *)
Theorem down_select_urls_rank_priority
    (search_results : list (list (list string))) (lists : list (list string))
    (num_urls : Z) (urls : gset string) (u v : string)
    (tv rv : nat) (lv : list string) :
  first_results search_results = Ok lists →
  _down_select_urls search_results num_urls = Ok urls →
  u ∈ urls →
  lists !! tv = Some lv → lv !! rv = Some v → v ≠ "" →
  (∀ (t r : nat) (l : list string),
     lists !! t = Some l → l !! r = Some u → (rv < r)%nat) →
  v ∈ urls.
Proof.
  intros Hl Hrun Hu Htv Hrv Hv Hrank.
  rewrite (down_select_urls_unfold _ _ _ Hl) in Hrun. injection Hrun as <-.
  destruct (select_loop_met num_urls (all_urls_of lists) ∅) as [k Hk].
  rewrite Hk in Hu |- *. rewrite elem_of_union, elem_of_list_to_set in Hu |- *.
  destruct Hu as [Hu|Hu]; [|set_solver]. left.
  apply elem_of_kept_urls in Hu as [Hu _]. apply elem_of_kept_urls.
  split; [|done].
  apply elem_of_take in Hu as (i & Hi & Hik). apply elem_of_take.
  exists (rv * length lists + tv)%nat.
  assert (rv < max_list (length <$> lists))%nat as Hmax.
  { eapply Nat.lt_le_trans; [by eapply lookup_lt_Some|].
    apply max_list_elem_of_le, list_elem_of_fmap. exists lv. split; [done|].
    apply list_elem_of_lookup. by exists tv. }
  split.
  { unfold all_urls_of.
    by rewrite (zip_longest_column_major lists tv rv lv), Hrv. }
  unfold all_urls_of in Hi.
  apply (join_lookup_Some_same_length (length lists)) in Hi
    as (j & row & t & Hrow & Ht & ->); [|apply zip_longest_rows].
  assert (j < max_list (length <$> lists))%nat as Hj.
  { apply lookup_lt_Some in Hrow. by rewrite zip_longest_length in Hrow. }
  rewrite (zip_longest_lookup lists j Hj) in Hrow. injection Hrow as <-.
  rewrite list_lookup_fmap in Ht.
  destruct (lists !! t) as [l|] eqn:Hlt; [|done]. simpl in Ht.
  injection Ht as Ht. specialize (Hrank t j l Hlt Ht).
  assert (tv < length lists)%nat by (by eapply lookup_lt_Some).
  nia.
Qed.

Lemma down_select_urls_rank_priority_witness :
  ∃ urls : gset string,
    _down_select_urls [[["a"; "b"]]; [["c"; "d"]]] 3 = Ok urls ∧ "c" ∈ urls.
Proof.
  eexists. split; [reflexivity|].
  eapply (down_select_urls_rank_priority [[["a"; "b"]]; [["c"; "d"]]]
            [["a"; "b"]; ["c"; "d"]] 3 _ "b" "c" 1 0 ["c"; "d"]);
    [reflexivity|reflexivity| |reflexivity|reflexivity|done|].
  - vm_compute. reflexivity.
  - intros t r l Ht Hr.
    destruct t as [|[|t]]; simplify_eq/=;
      destruct r as [|r]; simplify_eq/=; lia.
Defined.

(** ** The ordinance check: errors and composition *)

Lemma check_docs_loop_cons (env : Collaborators) (doc : Document)
    (rest ord_docs : list Document) (t : list event) :
  check_docs_loop env (doc :: rest) ord_docs t
  = match check_for_ordinance_info env doc with
    | Raise e => (Raise e, t ++ [OrdInfoCall doc])
    | Ok out =>
        match contains_ord_info (metadata out) with
        | None => (Raise (KeyError "contains_ord_info"), t ++ [OrdInfoCall doc])
        | Some true =>
            check_docs_loop env rest (ord_docs ++ [out]) (t ++ [OrdInfoCall doc])
        | Some false => check_docs_loop env rest ord_docs (t ++ [OrdInfoCall doc])
        end
    end.
Proof.
  simpl. unfold mbind, M_bind, call, lift, get_contains_ord_info.
  destruct (check_for_ordinance_info env doc) as [out|e]; [|done].
  by destruct (contains_ord_info (metadata out)) as [[]|].
Qed.

Lemma check_docs_loop_app (env : Collaborators) (docs1 docs2 ord_docs : list Document)
    (t : list event) :
  check_docs_loop env (docs1 ++ docs2) ord_docs t
  = match check_docs_loop env docs1 ord_docs t with
    | (Ok ord_docs1, t1) => check_docs_loop env docs2 ord_docs1 t1
    | (Raise e, t1) => (Raise e, t1)
    end.
Proof.
  revert ord_docs t. induction docs1 as [|doc docs1 IH]; intros ord_docs t.
  - done.
  - rewrite <- app_comm_cons, !check_docs_loop_cons.
    destruct (check_for_ordinance_info env doc) as [out|e]; [|done].
    destruct (contains_ord_info (metadata out)) as [[]|]; [apply IH..|done].
Qed.

Lemma check_docs_loop_acc (env : Collaborators) (docs ord_docs : list Document)
    (t : list event) :
  check_docs_loop env docs ord_docs t
  = match check_docs_loop env docs [] t with
    | (Ok found, t') => (Ok (ord_docs ++ found), t')
    | (Raise e, t') => (Raise e, t')
    end.
Proof.
  revert ord_docs t. induction docs as [|doc docs IH]; intros ord_docs t.
  - simpl. unfold mret, M_ret. by rewrite (right_id_L [] (++)).
  - rewrite !check_docs_loop_cons.
    destruct (check_for_ordinance_info env doc) as [out|e]; [|done].
    destruct (contains_ord_info (metadata out)) as [[]|]; [|apply IH|done].
    rewrite (IH (ord_docs ++ [out])), (IH ([] ++ [out])).
    destruct (check_docs_loop env docs [] (t ++ [OrdInfoCall doc]))
      as [[found|e] t']; [|done].
    by rewrite <- (assoc_L (++)).
Qed.

(** X7: checking a list in two parts, the second from where the first left
    off, is checking the whole list: the matches are those of the first
    part followed by those of the second, and an exception in either part
    is the exception of the whole. *)
Theorem check_docs_for_ords_app (env : Collaborators)
    (docs1 docs2 : list Document) (t : list event) :
  _check_docs_for_ords env (docs1 ++ docs2) t
  = match _check_docs_for_ords env docs1 t with
    | (Ok found1, t1) =>
        match _check_docs_for_ords env docs2 t1 with
        | (Ok found2, t2) => (Ok (found1 ++ found2), t2)
        | (Raise e, t2) => (Raise e, t2)
        end
    | (Raise e, t1) => (Raise e, t1)
    end.
Proof.
  unfold _check_docs_for_ords. rewrite check_docs_loop_app.
  destruct (check_docs_loop env docs1 [] t) as [[found1|e] t1]; [|done].
  apply check_docs_loop_acc.
Qed.

(** X8: the check stops at the first document on which the classifier raises:
    that exception is raised, the documents before it and the failing one
    have been sent, and none of the documents after it is. *)
Theorem check_docs_for_ords_raises (env : Collaborators)
    (before after outs : list Document) (bad : Document) (e : exn)
    (t : list event) :
  Forall2 (λ doc out, check_for_ordinance_info env doc = Ok out
                      ∧ is_Some (contains_ord_info (metadata out))) before outs →
  check_for_ordinance_info env bad = Raise e →
  _check_docs_for_ords env (before ++ bad :: after) t
  = (Raise e, t ++ (OrdInfoCall <$> before ++ [bad])).
Proof.
  intros Hbefore Hbad. unfold _check_docs_for_ords.
  rewrite check_docs_loop_app, (check_docs_loop_all _ _ _ _ _ Hbefore).
  rewrite check_docs_loop_cons, Hbad.
  by rewrite fmap_app, (assoc_L (++)).
Qed.

(** X9: A checked document that comes back without the [contains_ord_info]
    entry makes the check raise [KeyError] on that entry, and the documents
    after it are not sent. *)
Theorem check_docs_for_ords_key_error (env : Collaborators)
    (before after outs : list Document) (bad out : Document) (t : list event) :
  Forall2 (λ doc out, check_for_ordinance_info env doc = Ok out
                      ∧ is_Some (contains_ord_info (metadata out))) before outs →
  check_for_ordinance_info env bad = Ok out →
  contains_ord_info (metadata out) = None →
  _check_docs_for_ords env (before ++ bad :: after) t
  = (Raise (KeyError "contains_ord_info"),
     t ++ (OrdInfoCall <$> before ++ [bad])).
Proof.
  intros Hbefore Hbad Hkey. unfold _check_docs_for_ords.
  rewrite check_docs_loop_app, (check_docs_loop_all _ _ _ _ _ Hbefore).
  rewrite check_docs_loop_cons, Hbad, Hkey.
  by rewrite fmap_app, (assoc_L (++)).
Qed.

(** What a successful check tells: every document was answered for, and
    the result is the matches among the answers. *)
Lemma check_docs_loop_inv (env : Collaborators) (docs ord_docs found : list Document)
    (t t' : list event) :
  check_docs_loop env docs ord_docs t = (Ok found, t') →
  ∃ outs,
    Forall2 (λ doc out, check_for_ordinance_info env doc = Ok out
                        ∧ is_Some (contains_ord_info (metadata out))) docs outs
    ∧ found = ord_docs ++ filter has_ord_info outs
    ∧ t' = t ++ (OrdInfoCall <$> docs).
Proof.
  revert ord_docs t. induction docs as [|doc docs IH]; intros ord_docs t.
  - simpl. unfold mret, M_ret. intros [= <- <-]. exists [].
    by rewrite filter_nil, !(right_id_L [] (++)).
  - rewrite check_docs_loop_cons.
    destruct (check_for_ordinance_info env doc) as [out|e] eqn:Hout; [|done].
    destruct (contains_ord_info (metadata out)) as [[]|] eqn:Hflag; [| |done].
    + intros (outs & Hall & -> & ->)%IH. exists (out :: outs). split_and!.
      * constructor; [|done]. split; [done|]. by rewrite Hflag.
      * rewrite filter_cons, decide_True by done. by rewrite <- (assoc_L (++)).
      * by rewrite fmap_cons, <- (assoc_L (++)).
    + intros (outs & Hall & -> & ->)%IH. exists (out :: outs). split_and!.
      * constructor; [|done]. split; [done|]. by rewrite Hflag.
      * rewrite filter_cons, decide_False; [done|].
        unfold has_ord_info. by rewrite Hflag.
      * by rewrite fmap_cons, <- (assoc_L (++)).
Qed.

Lemma check_docs_for_ords_raises_witness :
  _check_docs_for_ords sample_env_ord_down
    ([sample_html] ++ sample_pdf :: [sample_html; sample_html]) []
  = (Raise (External "LLM call failed"),
     [] ++ (OrdInfoCall <$> [sample_html] ++ [sample_pdf])).
Proof.
  apply (check_docs_for_ords_raises sample_env_ord_down [sample_html]
           [sample_html; sample_html] [sample_ord_check sample_html]).
  - repeat constructor. by eexists.
  - reflexivity.
Defined.

Lemma check_docs_for_ords_key_error_witness :
  _check_docs_for_ords sample_env_no_flag
    ([sample_html] ++ sample_pdf :: [sample_html]) []
  = (Raise (KeyError "contains_ord_info"),
     [] ++ (OrdInfoCall <$> [sample_html] ++ [sample_pdf])).
Proof.
  apply (check_docs_for_ords_key_error sample_env_no_flag [sample_html]
           [sample_html] [sample_ord_check sample_html] sample_pdf sample_pdf).
  - repeat constructor. by eexists.
  - reflexivity.
  - reflexivity.
Defined.

(** ** The search fan-out and the jurisdiction filter *)

Lemma Forall2_fmap_Ok {A B} (f : A → result B) (l : list A) (k : list B) :
  Forall2 (λ x y, f x = Ok y) l k ↔ f <$> l = Ok <$> k.
Proof.
  split.
  - induction 1 as [|x y l k Hxy _ IH]; csimpl; [done|]. by rewrite Hxy, IH.
  - revert k. induction l as [|x l IH]; intros [|y k]; csimpl; try done.
    intros [= Hxy Hrest]. constructor; [done|by apply IH].
Qed.

Lemma all_Ok_fmap {A B} (f : A → result B) (l : list A) :
  (∀ x, x ∈ l → ∃ y, f x = Ok y) → ∃ k, f <$> l = Ok <$> k.
Proof.
  induction l as [|x l IH]; intros Hall.
  - by exists [].
  - destruct (Hall x) as [y Hy]; [left|].
    destruct IH as [k Hk]; [intros z Hz; apply Hall; by right|].
    exists (y :: k). csimpl. by rewrite Hy, Hk.
Qed.

(** X10: when every search answers, the fan-out returns one result per query
    template, in the order of the templates, whatever the order in which
    the searches finish, after one search call per template. *)
Theorem find_urls_all_answer (env : Collaborators) (location : string)
    (num_results : Z) (results : list (list (list string))) (t : list event) :
  Forall2 (λ q res, search env (format q location) num_results = Ok res)
    QUESTION_TEMPLATES results →
  _find_urls env location num_results t
  = (Ok results,
     t ++ ((λ q, SearchCall (format q location) num_results)
             <$> QUESTION_TEMPLATES))
  ∧ length results = 4%nat.
Proof.
  intros Hall. split.
  - rewrite find_urls_run. f_equal.
    apply (Forall2_fmap_Ok (λ q, _search_single env location q num_results))
      in Hall.
    by rewrite Hall, gather_all_Ok.
  - by rewrite <- (Forall2_length _ _ _ Hall).
Qed.

Lemma find_urls_all_answer_witness :
  _find_urls sample_env "Box Elder County, Utah" 10 []
  = (Ok [sample_links; sample_links; sample_links; sample_links],
     [] ++ ((λ q, SearchCall (format q "Box Elder County, Utah") 10)
              <$> QUESTION_TEMPLATES)).
Proof.
  apply (find_urls_all_answer sample_env "Box Elder County, Utah" 10
           [sample_links; sample_links; sample_links; sample_links] []).
  repeat constructor.
Defined.

Lemma elem_of_keep_checked (docs : list Document) (output : list bool)
    (d : Document) :
  d ∈ keep_checked docs output
  ↔ ∃ i : nat, docs !! i = Some d ∧ output !! i = Some true.
Proof.
  unfold keep_checked. revert output.
  induction docs as [|doc docs IH]; intros [|b output];
    try (split; [intros Hd; by apply elem_of_nil in Hd|by intros ([|?] & ? & ?)]).
  change (zip (doc :: docs) (b :: output)) with ((doc, b) :: zip docs output).
  rewrite filter_cons. simpl. destruct (decide (b = true)) as [->|Hb].
  - rewrite fmap_cons, elem_of_cons, IH. simpl. split.
    + intros [->|(i & ? & ?)]; [by exists 0%nat|by exists (S i)].
    + intros ([|i] & Hd & Ho); simplify_eq/=; [by left|right; by exists i].
  - rewrite IH. split.
    + intros (i & ? & ?). by exists (S i).
    + intros ([|i] & Hd & Ho); simplify_eq/=; by exists i.
Qed.

Lemma keep_checked_length (docs : list Document) (output : list bool) :
  (length (keep_checked docs output) ≤ length docs)%nat.
Proof.
  unfold keep_checked. rewrite length_fmap.
  etrans; [apply length_filter|]. rewrite length_zip_with. lia.
Qed.

(** X11: when every jurisdiction check answers, the documents that come back
    are exactly the input documents whose check answered true: none is
    added, none that passed is lost, none that failed is kept. *)
Theorem down_select_docs_correct_location_keeps (env : Collaborators)
    (docs : list Document) (location county state : string) (t : list event) :
  (∀ doc, doc ∈ docs → ∃ b, county_check env doc county state = Ok b) →
  ∃ out : list Document,
    _down_select_docs_correct_location env docs location county state t
    = (Ok out, t ++ ((λ doc, CountyCheckCall doc county state) <$> docs))
    ∧ (∀ doc, doc ∈ out
              ↔ doc ∈ docs ∧ county_check env doc county state = Ok true)
    ∧ (length out ≤ length docs)%nat.
Proof.
  intros Hall.
  destruct (all_Ok_fmap (λ doc, county_check env doc county state) docs Hall)
    as [output Hout].
  eexists. split_and!.
  - unfold _down_select_docs_correct_location. by rewrite Hout, gather_all_Ok.
  - intros doc. rewrite sorted_perm, elem_of_keep_checked. split.
    + intros (i & Hd & Ho). split; [apply list_elem_of_lookup; by exists i|].
      assert ((Ok <$> output) !! i = Some (Ok true)) as Hi
        by (by rewrite list_lookup_fmap, Ho).
      rewrite <- Hout, list_lookup_fmap, Hd in Hi. by injection Hi.
    + intros [(i & Hd)%list_elem_of_lookup Hc]. exists i. split; [done|].
      assert (((λ doc, county_check env doc county state) <$> docs) !! i
              = Some (Ok true)) as Hi
        by (by rewrite list_lookup_fmap, Hd; simpl; rewrite Hc).
      rewrite Hout, list_lookup_fmap in Hi.
      destruct (output !! i) as [b|]; [|done]. simpl in Hi. by simplify_eq.
  - rewrite (Permutation_length (sorted_perm _ _)). apply keep_checked_length.
Qed.

Lemma down_select_docs_correct_location_keeps_witness :
  ∃ out : list Document,
    _down_select_docs_correct_location sample_env_pdf_county
      [sample_html; sample_pdf; sample_html] "Box Elder County, Utah"
      "Box Elder" "Utah" []
    = (Ok out,
       [] ++ ((λ doc, CountyCheckCall doc "Box Elder" "Utah")
                <$> [sample_html; sample_pdf; sample_html]))
    ∧ (∀ doc, doc ∈ out
              ↔ doc ∈ [sample_html; sample_pdf; sample_html]
                ∧ county_check sample_env_pdf_county doc "Box Elder" "Utah"
                  = Ok true).
Proof.
  destruct (down_select_docs_correct_location_keeps sample_env_pdf_county
              [sample_html; sample_pdf; sample_html] "Box Elder County, Utah"
              "Box Elder" "Utah" []) as (out & Hrun & Hin & _).
  - intros doc _. by eexists.
  - by exists out.
Defined.

(** ** Best-match selection: totality, order of the input, composition *)

Section best_facts.
Context {A K : Type} `{PyOrd K} `{EqDecision K} (key : A → K).

Lemma last_sorted_app (l1 l2 : list A) :
  last (sorted key (l1 ++ l2))
  = match last (sorted key l1), last (sorted key l2) with
    | Some b1, Some b2 => Some (if py_lt (key b2) (key b1) then b1 else b2)
    | Some b1, None => Some b1
    | None, o => o
    end.
Proof.
  induction l1 as [|x l1 IH]; [done|].
  rewrite <- app_comm_cons, !last_sorted_cons, IH.
  destruct (last (sorted key l1)) as [b1|], (last (sorted key l2)) as [b2|];
    simpl; [|by destruct (py_lt (key b1) (key x))
            |by destruct (py_lt (key b2) (key x))|done].
  destruct (py_lt (key b2) (key b1)) eqn:H21, (py_lt (key b1) (key x)) eqn:H1x;
    simpl; rewrite ?H1x, ?H21.
  - by rewrite (py_lt_trans _ _ _ H21 H1x).
  - done.
  - by destruct (py_lt (key b2) (key x)).
  - assert (py_le (key x) (key b2) = true) as Hle.
    { apply (py_le_trans _ (key b1)); unfold py_le; by rewrite ?H1x, ?H21. }
    unfold py_le in Hle. apply negb_true_iff in Hle. by rewrite Hle.
Qed.

Lemma filter_key_NoDup (l : list A) (k : K) :
  NoDup (key <$> l) → (length (filter (λ y, key y = k) l) ≤ 1)%nat.
Proof.
  induction l as [|x l IH]; [simpl; lia|]. rewrite fmap_cons.
  intros [Hx Hl]%list.NoDup_cons. rewrite filter_cons.
  destruct (decide (key x = k)) as [<-|Hne]; [|by apply IH].
  assert (filter (λ y, key y = key x) l = []) as ->; [|simpl; lia].
  destruct (filter (λ y, key y = key x) l) as [|y ys] eqn:Hf; [done|].
  assert (y ∈ filter (λ y, key y = key x) l) as [Hy Hin]%list_elem_of_filter
    by (rewrite Hf; left).
  destruct Hx. apply list_elem_of_fmap. by exists y.
Qed.

(** With pairwise distinct keys the sorted list does not depend on the
    order of the input. *)
Lemma sorted_perm_unique (l l' : list A) :
  l ≡ₚ l' → NoDup (key <$> l) → sorted key l = sorted key l'.
Proof.
  intros Hperm Hnd. apply (stable_sorted_unique key); [apply sorted_sorted..|].
  intros k. rewrite !sorted_stable.
  assert (filter (λ y, key y = k) l ≡ₚ filter (λ y, key y = k) l') as Hf
    by (by rewrite Hperm).
  pose proof (filter_key_NoDup l k Hnd) as Hlen.
  destruct (filter (λ y, key y = k) l) as [|a [|b f]] eqn:Hfl; simpl in Hlen.
  - by apply Permutation_nil_l in Hf.
  - by apply Permutation_singleton_l in Hf.
  - lia.
Qed.
End best_facts.

Lemma parse_all_ord_docs_Some (docs : list Document) (best : Document) :
  _parse_all_ord_docs docs = Ok (Some best)
  ↔ last (sorted _ord_doc_sorting_key docs) = Some best.
Proof.
  unfold _parse_all_ord_docs. case_bool_decide as Hnil.
  - subst. by split.
  - destruct (last (sorted _ord_doc_sorting_key docs)); split; congruence.
Qed.

(** X13: when no two documents have the same key, the selection does not depend
    on the order in which the documents are given. *)
Theorem parse_all_ord_docs_order_free (docs docs' : list Document) :
  docs ≡ₚ docs' →
  NoDup (_ord_doc_sorting_key <$> docs) →
  _parse_all_ord_docs docs = _parse_all_ord_docs docs'.
Proof.
  intros Hperm Hnd. unfold _parse_all_ord_docs.
  rewrite (sorted_perm_unique _ord_doc_sorting_key docs docs' Hperm Hnd).
  do 2 case_bool_decide; subst; try done.
  - by apply Permutation_nil_l in Hperm.
  - by apply Permutation_nil_r in Hperm.
Qed.

Lemma parse_all_ord_docs_order_free_witness :
  _parse_all_ord_docs [sample_html; sample_pdf; tie_first]
  = _parse_all_ord_docs [tie_first; sample_html; sample_pdf].
Proof.
  apply parse_all_ord_docs_order_free.
  - by rewrite (Permutation_cons_append [sample_html; sample_pdf] tie_first).
  - apply (bool_decide_unpack _). vm_compute. exact I.
Defined.

(** X14: the selection of a list in two parts is the better of the two parts'
    selections, that of the second part when the two have the same key. *)
Theorem parse_all_ord_docs_app (docs1 docs2 : list Document)
    (best1 best2 : Document) :
  _parse_all_ord_docs docs1 = Ok (Some best1) →
  _parse_all_ord_docs docs2 = Ok (Some best2) →
  _parse_all_ord_docs (docs1 ++ docs2)
  = Ok (Some (if py_lt (_ord_doc_sorting_key best2) (_ord_doc_sorting_key best1)
              then best1 else best2)).
Proof.
  intros H1%parse_all_ord_docs_Some H2%parse_all_ord_docs_Some.
  apply parse_all_ord_docs_Some. by rewrite last_sorted_app, H1, H2.
Qed.

Lemma parse_all_ord_docs_app_witness :
  _parse_all_ord_docs ([sample_html; tie_first] ++ [tie_second; sample_pdf])
  = Ok (Some tie_second).
Proof.
  apply (parse_all_ord_docs_app [sample_html; tie_first] [tie_second; sample_pdf]
           tie_first tie_second); reflexivity.
Defined.

(** X15: A document without a date is never preferred to a document dated in
    year 0 or later: if the list has such a dated document, the document
    returned is dated too, with a year at least as late. *)
Theorem parse_all_ord_docs_prefers_dated (docs : list Document)
    (best d : Document) (y m dd : Z) :
  _parse_all_ord_docs docs = Ok (Some best) →
  d ∈ docs →
  date (metadata d) = Some (y, m, dd) →
  0 ≤ y →
  ∃ y' m' dd', date (metadata best) = Some (y', m', dd') ∧ y ≤ y'.
Proof.
  intros Hbest%parse_all_ord_docs_Some Hd Hdate Hy.
  destruct (last_sorted_split _ _ _ Hbest) as (l1 & l2 & -> & H1 & H2).
  assert (not_better d best) as Hnb.
  { apply ord_key_le_iff. rewrite elem_of_app, elem_of_cons in Hd.
    rewrite Forall_forall in H1, H2.
    destruct Hd as [Hd|[->|Hd]]; [by apply H1|apply py_le_refl|].
    apply py_lt_le, (H2 _ Hd). }
  assert (year d ≤ year best) as Hle by (unfold not_better in Hnb; lia).
  unfold year, get_date in Hle. rewrite Hdate in Hle. simpl in Hle.
  destruct (date (metadata best)) as [[[y' m'] dd']|]; simpl in Hle; [|lia].
  by exists y', m', dd'.
Qed.

Lemma parse_all_ord_docs_prefers_dated_witness :
  ∃ y' m' dd',
    date (metadata tie_first) = Some (y', m', dd') ∧ 2021 ≤ y'.
Proof.
  apply (parse_all_ord_docs_prefers_dated [sample_pdf; tie_first; sample_html]
           tie_first tie_first 2021 3 9);
    [reflexivity|set_solver|reflexivity|lia].
Defined.

(** ** The whole run: what a result tells, and how failures surface *)

Lemma bind_inv_Ok {A B} (m : M A) (f : A → M B) (t t' : list event) (b : B) :
  (m ≫= f) t = (Ok b, t') →
  ∃ a t1, m t = (Ok a, t1) ∧ f a t1 = (Ok b, t').
Proof.
  unfold mbind, M_bind. destruct (m t) as [[a|e] t1]; [|done]. by eauto.
Qed.

Lemma lift_inv_Ok {A} (r : result A) (t t' : list event) (a : A) :
  lift r t = (Ok a, t') → r = Ok a ∧ t' = t.
Proof. unfold lift. by intros [= -> ->]. Qed.

(** A successful run went through its five stages. *)
Lemma download_inv (env : Collaborators) (location : Location) (num_urls : Z)
    (t t' : list event) (r : option Document) :
  download_county_ordinance env location num_urls t = (Ok r, t') →
  ∃ search_results t1 urls docs t2 loc_docs t3 ord_docs t4,
    _find_urls env (full_name location) 10 t = (Ok search_results, t1)
    ∧ _down_select_urls search_results num_urls = Ok urls
    ∧ _load_docs env urls t1 = (Ok docs, t2)
    ∧ _down_select_docs_correct_location env docs
        (full_name location) (name location) (state location) t2
      = (Ok loc_docs, t3)
    ∧ _check_docs_for_ords env loc_docs t3 = (Ok ord_docs, t4)
    ∧ _parse_all_ord_docs ord_docs = Ok r
    ∧ t' = t4 ++ [LogInfo (Z.of_nat (length ord_docs)) (full_name location)].
Proof.
  unfold download_county_ordinance.
  intros (search_results & t1 & Hfind & Hrun)%bind_inv_Ok.
  apply bind_inv_Ok in Hrun as (urls & t1' & [Hsel ->]%lift_inv_Ok & Hrun).
  apply bind_inv_Ok in Hrun as (docs & t2 & Hload & Hrun).
  apply bind_inv_Ok in Hrun as (loc_docs & t3 & Hloc & Hrun).
  apply bind_inv_Ok in Hrun as (ord_docs & t4 & Hord & Hrun).
  apply bind_inv_Ok in Hrun as ([] & t5 & Hlog & [Hparse ->]%lift_inv_Ok).
  injection Hlog as <-.
  by exists search_results, t1, urls, docs, t2, loc_docs, t3, ord_docs, t4.
Qed.

Lemma down_select_docs_correct_location_inv (env : Collaborators)
    (docs out : list Document) (location county state : string)
    (t t' : list event) :
  _down_select_docs_correct_location env docs location county state t
  = (Ok out, t') →
  ∃ output : list bool,
    (λ doc, county_check env doc county state) <$> docs = Ok <$> output
    ∧ out = sorted correct_location_key (keep_checked docs output)
    ∧ t' = t ++ ((λ doc, CountyCheckCall doc county state) <$> docs).
Proof.
  unfold _down_select_docs_correct_location.
  destruct (gather _ _) as [output|e] eqn:Hg; [|done].
  intros [= <- <-]. exists output. split_and!; [|done..].
  by apply gather_Ok in Hg.
Qed.

Lemma keep_checked_passed (env : Collaborators) (docs : list Document)
    (county state : string) (output : list bool) (doc : Document) :
  (λ doc, county_check env doc county state) <$> docs = Ok <$> output →
  doc ∈ keep_checked docs output →
  doc ∈ docs ∧ county_check env doc county state = Ok true.
Proof.
  intros Hout (i & Hd & Ho)%elem_of_keep_checked.
  split; [apply list_elem_of_lookup; by exists i|].
  assert ((Ok <$> output) !! i = Some (Ok true)) as Hi
    by (by rewrite list_lookup_fmap, Ho).
  rewrite <- Hout, list_lookup_fmap, Hd in Hi. by injection Hi.
Qed.

Lemma find_urls_inv (env : Collaborators) (loc : string) (num_results : Z)
    (search_results : list (list (list string))) (t t1 : list event) :
  _find_urls env loc num_results t = (Ok search_results, t1) →
  (λ q, _search_single env loc q num_results) <$> QUESTION_TEMPLATES
  = Ok <$> search_results
  ∧ t1 = t ++ ((λ q, SearchCall (format q loc) num_results)
                 <$> QUESTION_TEMPLATES).
Proof.
  rewrite find_urls_run, pair_eq. intros [Hg <-]. split; [|done].
  by apply gather_Ok in Hg.
Qed.

(** X16: A document the run returns was checked three times over: it is what
    the ordinance check made of a document that the loader fetched for the
    URLs selected from the answers of the searches and that passed the
    jurisdiction check, and its [contains_ord_info] flag is true. *)
Theorem download_result_provenance (env : Collaborators) (location : Location)
    (num_urls : Z) (t t' : list event) (best : Document) :
  download_county_ordinance env location num_urls t = (Ok (Some best), t') →
  has_ord_info best
  ∧ ∃ (search_results : list (list (list string))) (urls : gset string)
      (docs : list Document) (doc : Document),
      (λ q, _search_single env (full_name location) q 10) <$> QUESTION_TEMPLATES
      = Ok <$> search_results
      ∧ _down_select_urls search_results num_urls = Ok urls
      ∧ fetch_all env urls = Ok docs
      ∧ doc ∈ docs
      ∧ county_check env doc (name location) (state location) = Ok true
      ∧ check_for_ordinance_info env doc = Ok best.
Proof.
  intros (sr & t1 & urls & docs & t2 & loc_docs & t3 & ord_docs & t4
          & Hfind & Hsel & Hload & Hloc & Hord & Hparse & _)%download_inv.
  apply parse_all_ord_docs_Some in Hparse.
  assert (best ∈ ord_docs) as Hbest.
  { rewrite <- (sorted_perm _ord_doc_sorting_key ord_docs).
    apply last_Some in Hparse as [l ->]. set_solver. }
  apply check_docs_loop_inv in Hord as (outs & Hall & -> & _).
  simpl in Hbest. apply list_elem_of_filter in Hbest as [Hflag Hin].
  split; [done|].
  apply list_elem_of_lookup in Hin as [i Hi].
  destruct (Forall2_lookup_r _ _ _ _ _ Hall Hi) as (doc & Hdoc & Hcheck & _).
  apply down_select_docs_correct_location_inv in Hloc as (output & Hout & -> & _).
  assert (doc ∈ keep_checked docs output) as Hkept.
  { rewrite <- (sorted_perm correct_location_key).
    apply list_elem_of_lookup. by exists i. }
  apply (keep_checked_passed env _ _ _ _ _ Hout) in Hkept as [Hin Hcounty].
  rewrite load_docs_run in Hload. injection Hload as Hfetch _.
  apply find_urls_inv in Hfind as [Hsearch _].
  by exists sr, urls, docs, doc.
Qed.

Lemma download_result_provenance_witness :
  has_ord_info (sample_ord_check sample_pdf)
  ∧ ∃ (search_results : list (list (list string))) (urls : gset string)
      (docs : list Document) (doc : Document),
      (λ q, _search_single sample_env (full_name sample_location) q 10)
        <$> QUESTION_TEMPLATES
      = Ok <$> search_results
      ∧ _down_select_urls search_results 5 = Ok urls
      ∧ fetch_all sample_env urls = Ok docs
      ∧ doc ∈ docs
      ∧ county_check sample_env doc "Box Elder" "Utah" = Ok true
      ∧ check_for_ordinance_info sample_env doc = Ok (sample_ord_check sample_pdf).
Proof.
  eapply (download_result_provenance sample_env sample_location 5 []).
  erewrite download_stages;
    [|apply sample_find_urls|apply sample_down_select_urls|reflexivity..].
  reflexivity.
Defined.

Lemma check_docs_loop_finish_orders (env : Collaborators)
    (search_order check_order : list nat) (docs ord_docs : list Document)
    (t : list event) :
  check_docs_loop (with_finish_orders env search_order check_order)
    docs ord_docs t
  = check_docs_loop env docs ord_docs t.
Proof.
  revert ord_docs t. induction docs as [|doc docs IH]; intros ord_docs t; [done|].
  rewrite !check_docs_loop_cons. simpl.
  destruct (check_for_ordinance_info env doc) as [out|e]; [|done].
  by destruct (contains_ord_info (metadata out)) as [[]|]; rewrite ?IH.
Qed.

(** X17: A run that returns does not depend on the order in which the tasks of
    the two fan-outs finish: with the same answers and any other finish
    orders it returns the same value after the same calls. *)
Theorem download_finish_order_free (env : Collaborators) (location : Location)
    (num_urls : Z) (search_order check_order : list nat)
    (t t' : list event) (r : option Document) :
  download_county_ordinance env location num_urls t = (Ok r, t') →
  download_county_ordinance (with_finish_orders env search_order check_order)
    location num_urls t
  = (Ok r, t').
Proof.
  intros (sr & t1 & urls & docs & t2 & loc_docs & t3 & ord_docs & t4
          & Hfind & Hsel & Hload & Hloc & Hord & Hparse & ->)%download_inv.
  rewrite <- Hparse.
  apply (download_stages _ location num_urls t t1 t2 t3 t4 sr urls docs loc_docs);
    [| done | exact Hload | |].
  - apply find_urls_inv in Hfind as [Hg ->]. rewrite find_urls_run.
    change (_search_single (with_finish_orders env search_order check_order))
      with (_search_single env).
    by rewrite Hg, gather_all_Ok.
  - apply down_select_docs_correct_location_inv in Hloc as (output & Hout & -> & ->).
    unfold _down_select_docs_correct_location. simpl.
    by rewrite Hout, gather_all_Ok.
  - unfold _check_docs_for_ords in *. by rewrite check_docs_loop_finish_orders.
Qed.

Lemma download_finish_order_free_witness :
  download_county_ordinance (with_finish_orders sample_env [0; 1; 2; 3]%nat [])
    sample_location 5 []
  = download_county_ordinance sample_env sample_location 5 [].
Proof.
  rewrite download_sample_run.
  apply download_finish_order_free, download_sample_run.
Defined.

(** X18: A search that answers with no link list at all makes the whole run
    raise [IndexError] right after the searches: the loader is not called. *)
Theorem download_index_error (env : Collaborators) (location : Location)
    (num_urls : Z) (results : list (list (list string))) (t : list event) :
  Forall2 (λ q res, search env (format q (full_name location)) 10 = Ok res)
    QUESTION_TEMPLATES results →
  [] ∈ results →
  download_county_ordinance env location num_urls t
  = (Raise IndexError,
     t ++ ((λ q, SearchCall (format q (full_name location)) 10)
             <$> QUESTION_TEMPLATES)).
Proof.
  intros Hall Hin. unfold download_county_ordinance.
  erewrite bind_Ok.
  - erewrite bind_Raise; [done|]. unfold lift, _down_select_urls.
    by rewrite (first_results_empty_result _ Hin).
  - rewrite find_urls_run.
    apply (Forall2_fmap_Ok
             (λ q, _search_single env (full_name location) q 10)) in Hall.
    by rewrite Hall, gather_all_Ok.
Qed.

Lemma download_index_error_witness :
  download_county_ordinance sample_env_no_list sample_location 5 []
  = (Raise IndexError,
     [] ++ ((λ q, SearchCall (format q (full_name sample_location)) 10)
              <$> QUESTION_TEMPLATES)).
Proof.
  apply (download_index_error sample_env_no_list sample_location 5 [[]; []; []; []]).
  - repeat constructor.
  - left.
Defined.

(** X19: an exception of the loader is not absorbed: the run raises it right
    after the loader call, and neither check is called. *)
Theorem download_loader_raises (env : Collaborators) (location : Location)
    (num_urls : Z) (search_results : list (list (list string)))
    (urls : gset string) (e : exn) (t t1 : list event) :
  _find_urls env (full_name location) 10 t = (Ok search_results, t1) →
  _down_select_urls search_results num_urls = Ok urls →
  fetch_all env urls = Raise e →
  download_county_ordinance env location num_urls t
  = (Raise e, t1 ++ [FetchAllCall urls]).
Proof.
  intros Hfind Hsel Hload. unfold download_county_ordinance.
  erewrite bind_Ok by exact Hfind.
  erewrite bind_Ok by (unfold lift; by rewrite Hsel).
  erewrite bind_Raise; [done|]. by rewrite load_docs_run, Hload.
Qed.

Lemma download_loader_raises_witness :
  download_county_ordinance sample_env_loader_down sample_location 5 []
  = (Raise (External "no browser"),
     ([] ++ ((λ q, SearchCall (format q (full_name sample_location)) 10)
               <$> QUESTION_TEMPLATES))
     ++ [FetchAllCall sample_urls]).
Proof.
  apply (download_loader_raises sample_env_loader_down sample_location 5
           [sample_links; sample_links; sample_links; sample_links]).
  - reflexivity.
  - apply sample_down_select_urls.
  - reflexivity.
Defined.

(** Every coroutine only ever appends to the trace. *)
Lemma bind_appends {A B} (m : M A) (f : A → M B) :
  (∀ t, ∃ new, (m t).2 = t ++ new) →
  (∀ a t, ∃ new, (f a t).2 = t ++ new) →
  ∀ t, ∃ new, ((m ≫= f) t).2 = t ++ new.
Proof.
  intros Hm Hf t. unfold mbind, M_bind. destruct (Hm t) as [new1 H1].
  destruct (m t) as [[a|e] t1]; simpl in H1; subst; [|by eauto].
  destruct (Hf a (t ++ new1)) as [new2 H2]. exists (new1 ++ new2).
  by rewrite H2, (assoc_L (++)).
Qed.

Lemma lift_appends {A} (r : result A) (t : list event) :
  ∃ new, (lift r t).2 = t ++ new.
Proof. exists []. by rewrite (right_id_L [] (++)). Qed.

Lemma check_docs_loop_appends (env : Collaborators) (docs ord_docs : list Document)
    (t : list event) :
  ∃ new, (check_docs_loop env docs ord_docs t).2 = t ++ new.
Proof.
  revert ord_docs t. induction docs as [|doc docs IH]; intros ord_docs t.
  - exists []. by rewrite (right_id_L [] (++)).
  - rewrite check_docs_loop_cons.
    destruct (check_for_ordinance_info env doc) as [out|e]; [|by eauto].
    destruct (contains_ord_info (metadata out)) as [[]|]; [..|by eauto].
    + destruct (IH (ord_docs ++ [out]) (t ++ [OrdInfoCall doc])) as [new ->].
      exists ([OrdInfoCall doc] ++ new). by rewrite (assoc_L (++)).
    + destruct (IH ord_docs (t ++ [OrdInfoCall doc])) as [new ->].
      exists ([OrdInfoCall doc] ++ new). by rewrite (assoc_L (++)).
Qed.

(** X21: whatever happens afterwards, a run first issues one search per query
    template, each for ten results, in the order of the templates, and it
    leaves the events before it untouched; the cap [num_urls] plays no part
    in what is searched. *)
Theorem download_searches_first (env : Collaborators) (location : Location)
    (num_urls : Z) (t : list event) :
  ∃ later : list event,
    (download_county_ordinance env location num_urls t).2
    = t ++ ((λ q, SearchCall (format q (full_name location)) 10)
              <$> QUESTION_TEMPLATES)
        ++ later.
Proof.
  unfold download_county_ordinance, mbind at 1, M_bind at 1.
  rewrite find_urls_run.
  destruct (gather _ _) as [search_results|e];
    [|exists []; by rewrite (right_id_L [] (++))].
  match goal with |- ∃ later, (?k ?t1).2 = _ => assert (∃ new, (k t1).2 = t1 ++ new)
    as [new ->] end.
  { apply bind_appends; [intros; apply lift_appends|]. intros urls t1.
    apply bind_appends; [intros; by eexists|]. intros docs t2.
    apply bind_appends; [intros; by eexists|]. intros loc_docs t3.
    apply bind_appends; [intros; apply check_docs_loop_appends|].
    intros ord_docs t4.
    apply bind_appends; [intros; by eexists|]. intros _ t5.
    apply lift_appends. }
  exists new. by rewrite (assoc_L (++)).
Qed.

(** X22: what a run that returns has done, in full.  Every search
    answered; the URLs were selected from the answers; the loader fetched
    documents for exactly those URLs; every fetched document had its
    jurisdiction check; the documents that passed, PDF documents first and
    shorter texts first within each class, each had its ordinance check, in
    that order; the documents whose flag is true are the ones the selection
    is made from and the ones the log line counts.  The calls come in
    exactly that order, no ordinance check before the last jurisdiction
    check, and the run returns [None] exactly when no document has the
    flag. *)
Theorem download_trace_shape (env : Collaborators) (location : Location)
    (num_urls : Z) (t t' : list event) (r : option Document) :
  download_county_ordinance env location num_urls t = (Ok r, t') →
  ∃ (search_results : list (list (list string))) (urls : gset string)
    (docs : list Document) (output : list bool) (outs : list Document),
    (λ q, _search_single env (full_name location) q 10) <$> QUESTION_TEMPLATES
    = Ok <$> search_results
    ∧ _down_select_urls search_results num_urls = Ok urls
    ∧ fetch_all env urls = Ok docs
    ∧ (λ doc, county_check env doc (name location) (state location)) <$> docs
      = Ok <$> output
    ∧ Forall2 (λ doc out, check_for_ordinance_info env doc = Ok out
                          ∧ is_Some (contains_ord_info (metadata out)))
        (sorted correct_location_key (keep_checked docs output)) outs
    ∧ _parse_all_ord_docs (filter has_ord_info outs) = Ok r
    ∧ (r = None ↔ filter has_ord_info outs = [])
    ∧ t' = t ++ ((λ q, SearchCall (format q (full_name location)) 10)
                   <$> QUESTION_TEMPLATES)
             ++ [FetchAllCall urls]
             ++ ((λ doc, CountyCheckCall doc (name location) (state location))
                   <$> docs)
             ++ (OrdInfoCall
                   <$> sorted correct_location_key (keep_checked docs output))
             ++ [LogInfo (Z.of_nat (length (filter has_ord_info outs)))
                   (full_name location)].
Proof.
  intros (sr & t1 & urls & docs & t2 & loc_docs & t3 & ord_docs & t4
          & Hfind & Hsel & Hload & Hloc & Hord & Hparse & ->)%download_inv.
  apply find_urls_inv in Hfind as [Hsearch ->].
  rewrite load_docs_run, pair_eq in Hload. destruct Hload as [Hfetch <-].
  apply down_select_docs_correct_location_inv in Hloc as (output & Hout & -> & ->).
  apply check_docs_loop_inv in Hord as (outs & Hall & -> & ->).
  exists sr, urls, docs, output, outs.
  split_and!; [done..| |].
  - simpl in Hparse |- *. unfold _parse_all_ord_docs in Hparse.
    case_bool_decide as Hnil.
    + injection Hparse as <-. by rewrite Hnil.
    + destruct (last (sorted _ord_doc_sorting_key (filter has_ord_info outs)));
        [|done].
      injection Hparse as <-. done.
  - simpl. by rewrite <- !(assoc_L (++)).
Qed.

Lemma download_trace_shape_witness :
  ∃ (urls : gset string) (docs : list Document) (output : list bool)
    (outs : list Document),
    fetch_all sample_env urls = Ok docs
    ∧ (download_county_ordinance sample_env sample_location 5 []).2
      = [] ++ ((λ q, SearchCall (format q (full_name sample_location)) 10)
                 <$> QUESTION_TEMPLATES)
           ++ [FetchAllCall urls]
           ++ ((λ doc, CountyCheckCall doc (name sample_location)
                         (state sample_location)) <$> docs)
           ++ (OrdInfoCall
                 <$> sorted correct_location_key (keep_checked docs output))
           ++ [LogInfo (Z.of_nat (length (filter has_ord_info outs)))
                 (full_name sample_location)].
Proof.
  destruct (download_trace_shape sample_env sample_location 5 []
              _ _ download_sample_run)
    as (sr & urls & docs & output & outs & _ & _ & Hfetch & _ & _ & _ & _ & Ht).
  exists urls, docs, output, outs. split; [done|].
  rewrite download_sample_run. exact Ht.
Defined.

(** ** PDF text: [combine_pages] and [replace_chars_for_clean] *)

Section pdf_text_facts.
Import PDFtoTXT.

Lemma replace_single (b h : N) (s : str) :
  replace [b] [h] s = (λ c, if decide (c = b) then h else c) <$> s.
Proof.
  unfold replace. induction s as [|c s IH]; [done|].
  cbn [replace_from startswith length Nat.sub]. rewrite fmap_cons, <- IH.
  destruct (N.eqb_spec b c) as [->|Hne].
  - by rewrite decide_True.
  - by rewrite decide_False.
Qed.

Lemma startswith_elem_of (old s : str) (x : N) :
  startswith old s = true → x ∈ old → x ∈ s.
Proof.
  revert s. induction old as [|o old IH]; intros [|c s]; simpl; try done.
  - by intros _ ?%elem_of_nil.
  - destruct (N.eqb_spec o c) as [->|]; [|done].
    intros Hs [->|Hx]%elem_of_cons; [left|right; by apply IH].
Qed.

Lemma replace_from_absent (old new s : str) (x : N) :
  x ∈ old → x ∉ s → replace_from old new 0 s = s.
Proof.
  intros Hold. induction s as [|c s IH]; [done|].
  intros [Hc Hs]%not_elem_of_cons. cbn [replace_from].
  destruct (startswith old (c :: s)) eqn:Hstart.
  - apply (startswith_elem_of _ _ x) in Hstart; [|done].
    apply elem_of_cons in Hstart as [?|?]; done.
  - by rewrite IH.
Qed.

Lemma replace_from_line_bullet (a b : str) :
  bullet ∉ a →
  replace_from [newline; bullet] [hyphen] 0 (a ++ newline :: bullet :: b)
  = a ++ hyphen :: replace_from [newline; bullet] [hyphen] 0 b.
Proof.
  induction a as [|c a IH]; [done|].
  intros [Hc Ha]%not_elem_of_cons. rewrite <- !app_comm_cons.
  cbn [replace_from]. rewrite (IH Ha).
  assert (startswith [newline; bullet] (c :: a ++ newline :: bullet :: b) = false)
    as ->; [|done].
  cbn [startswith]. destruct (N.eqb_spec newline c) as [<-|]; [|done].
  destruct a as [|d a]; [done|]. cbn [app startswith].
  apply not_elem_of_cons in Ha as [Hd _].
  by destruct (N.eqb_spec bullet d).
Qed.

Lemma join_no_bullet (pages : list str) :
  (∀ page, page ∈ pages → bullet ∉ page) → bullet ∉ join [newline] pages.
Proof.
  induction pages as [|page [|page' rest] IH]; intros Hall.
  - apply not_elem_of_nil.
  - apply Hall. left.
  - cbn [join]. rewrite !not_elem_of_app. split_and!.
    + apply Hall. left.
    + by intros [= ?]%list_elem_of_singleton.
    + apply IH. intros p Hp. apply Hall. by right.
Qed.

Lemma replace_bullet_gone (s : str) : bullet ∉ replace [bullet] [hyphen] s.
Proof.
  rewrite replace_single. intros (c & Hc & _)%list_elem_of_fmap. by case_decide.
Qed.

Lemma replace_both_absent (s : str) :
  bullet ∉ s →
  replace [bullet] [hyphen] (replace [newline; bullet] [hyphen] s) = s.
Proof.
  intros Hs. unfold replace.
  assert (bullet ∈ [newline; bullet]) as Hin2 by (right; left).
  assert (bullet ∈ [bullet]) as Hin1 by left.
  rewrite (replace_from_absent _ _ _ bullet Hin2 Hs).
  by rewrite (replace_from_absent _ _ _ bullet Hin1 Hs).
Qed.

(** X23: no bullet is left in the combined text. *)
Theorem combine_pages_no_bullet (pages : list str) :
  bullet ∉ combine_pages pages.
Proof. unfold combine_pages. apply replace_bullet_gone. Qed.

(** X24: pages without bullets are joined with line breaks and nothing else
    changes. *)
Theorem combine_pages_plain (pages : list str) :
  (∀ page, page ∈ pages → bullet ∉ page) →
  combine_pages pages = join [newline] pages.
Proof.
  intros Hall%join_no_bullet. unfold combine_pages.
  by apply replace_both_absent.
Qed.

Lemma combine_pages_plain_witness :
  combine_pages [[72; 105]; [33]]%N = join [newline] [[72; 105]; [33]]%N.
Proof.
  apply combine_pages_plain. intros page Hpage.
  repeat (apply elem_of_cons in Hpage as [->|Hpage]);
    [..|by apply elem_of_nil in Hpage];
    apply (bool_decide_unpack _); vm_compute; exact I.
Defined.

(** X25: combining is idempotent: the combined text, taken as a single page,
    combines to itself. *)
Theorem combine_pages_idempotent (pages : list str) :
  combine_pages [combine_pages pages] = combine_pages pages.
Proof.
  unfold combine_pages at 1. cbn [join].
  apply replace_both_absent. unfold combine_pages. apply replace_bullet_gone.
Qed.

(** X26: A page that starts with a bullet is glued to the page before it: the
    line break between them and the bullet become one hyphen, where two
    pages without bullets are separated by a line break. *)
Theorem combine_pages_bullet_page (page1 page2 : str) :
  bullet ∉ page1 → bullet ∉ page2 →
  combine_pages [page1; bullet :: page2] = page1 ++ hyphen :: page2
  ∧ combine_pages [page1; page2] = page1 ++ newline :: page2.
Proof.
  intros H1 H2. split.
  - unfold combine_pages, replace. cbn [join app].
    rewrite (replace_from_line_bullet page1 page2 H1).
    assert (bullet ∈ [newline; bullet]) as Hin2 by (right; left).
    assert (bullet ∈ [bullet]) as Hin1 by left.
    rewrite (replace_from_absent _ _ page2 bullet Hin2 H2).
    apply (replace_from_absent _ _ _ bullet Hin1).
    rewrite not_elem_of_app, not_elem_of_cons. by split_and!.
  - unfold combine_pages. cbn [join app]. apply replace_both_absent.
    rewrite not_elem_of_app, not_elem_of_cons. by split_and!.
Qed.

Lemma combine_pages_bullet_page_witness :
  combine_pages [[97; 98]; bullet :: [99]]%N = ([97; 98] ++ hyphen :: [99])%N
  ∧ combine_pages [[97; 98]; [99]]%N = ([97; 98] ++ newline :: [99])%N.
Proof.
  apply combine_pages_bullet_page;
    apply (bool_decide_unpack _); vm_compute; exact I.
Defined.

(** X27: the clean-up for the word comparison turns each of the six characters
    of [repl] into a space and leaves every other character alone: the
    text keeps its length and holds none of the six afterwards. *)
Theorem replace_chars_for_clean_spec (text : str) :
  replace_chars_for_clean text
  = (λ c, if bool_decide (c ∈ repl) then space else c) <$> text
  ∧ length (replace_chars_for_clean text) = length text
  ∧ ∀ c, c ∈ repl → c ∉ replace_chars_for_clean text.
Proof.
  assert (replace_chars_for_clean text
          = (λ c, if bool_decide (c ∈ repl) then space else c) <$> text) as Heq.
  { unfold replace_chars_for_clean. unfold repl at 1. cbn [foldl].
    rewrite !replace_single, <- !list_fmap_compose.
    apply list_fmap_ext. intros _ c _. unfold compose.
    destruct (decide (c ∈ repl)) as [Hin|Hnin].
    - rewrite bool_decide_eq_true_2 by done. unfold repl in Hin.
      repeat (apply elem_of_cons in Hin as [->|Hin]); try reflexivity.
      by apply elem_of_nil in Hin.
    - rewrite bool_decide_eq_false_2 by done. unfold repl in Hnin.
      repeat (apply not_elem_of_cons in Hnin as [? Hnin]).
      rewrite !(decide_False (P:=c = 10%N)) by done.
      rewrite !(decide_False (P:=c = 46%N)) by done.
      rewrite !(decide_False (P:=c = 44%N)) by done.
      rewrite !(decide_False (P:=c = 45%N)) by done.
      rewrite !(decide_False (P:=c = 47%N)) by done.
      by rewrite !(decide_False (P:=c = 58%N)) by done. }
  split_and!; [done|by rewrite Heq, length_fmap|].
  intros c Hc. rewrite Heq. intros (d & Hd & _)%list_elem_of_fmap.
  case_bool_decide as Hin; subst; [|done].
  unfold repl in Hc.
  repeat (apply elem_of_cons in Hc as [Hc|Hc]); try done.
  by apply elem_of_nil in Hc.
Qed.
End pdf_text_facts.

(** The embedding against what the interpreter answers on the same texts. *)
Example replace_examples :
  PDFtoTXT.replace [97; 97]%N [98]%N [97; 97; 97; 97; 97; 99; 97; 97]%N
  = [98; 98; 97; 99; 98]%N
  ∧ PDFtoTXT.replace [97; 98; 97]%N [120; 121]%N [97; 98; 97; 98; 97; 98; 97]%N
    = [120; 121; 98; 120; 121]%N
  ∧ PDFtoTXT.replace [] [45]%N [97; 98]%N = [45; 97; 45; 98; 45]%N.
Proof. split_and!; reflexivity. Qed.

Example combine_pages_example :
  PDFtoTXT.combine_pages
    [[97; 8226; 98]; [8226; 99; 10; 8226; 8226; 10]; []; [10; 8226]]%N
  = [97; 45; 98; 45; 99; 45; 45; 10; 10; 10; 45]%N.
Proof. reflexivity. Qed.
